(** * Hit detection of carball: [replay_analysis/analysis/hit_detection/base_hit.py]

    A shallow embedding of the hit-detection module and the properties of
    its specification.

    Conventions of the embedding.
    - A Python/numpy float is a real number or NaN: [float := option R],
      with [None] for NaN.  Arithmetic propagates NaN, comparisons with NaN
      are false.  Rounding and infinities are not modelled.
    - A pandas Series / single-entity DataFrame is the list of its rows in
      order, each with its index label ([Frame]); the multi-entity frame
      [hit_frames] is column-major ([HitFrames]).  Index labels are frame
      numbers, and a label names at most one row.
    - A Python exception is an [exn]; a computation that may raise returns an
      [outcome].
    - The names [get_hitbox], [unrotate_position], [get_distance] and
      [create_rotation_matrix] are called by [get_hits_from_game] but are
      neither defined nor imported by the module, and [Hitbox] comes from a
      module outside this file: they are parameters of the development. *)

From Stdlib Require Import Reals Lra RNsatz ZArith List Sorted.
From stdpp Require Import gmap strings list.

Open Scope R_scope.

(** ** Floats with NaN *)

Definition float := option R.
Definition NaN : float := None.

Definition fneg (a : float) : float :=
  match a with Some x => Some (- x) | None => None end.
Definition fadd (a b : float) : float :=
  match a, b with Some x, Some y => Some (x + y) | _, _ => None end.
Definition fsub (a b : float) : float :=
  match a, b with Some x, Some y => Some (x - y) | _, _ => None end.
Definition fmul (a b : float) : float :=
  match a, b with Some x, Some y => Some (x * y) | _, _ => None end.
Definition fcos (a : float) : float :=
  match a with Some x => Some (cos x) | None => None end.
Definition fsin (a : float) : float :=
  match a with Some x => Some (sin x) | None => None end.

Declare Scope float_scope.
Delimit Scope float_scope with fl.
Notation "a + b" := (fadd a b) : float_scope.
Notation "a - b" := (fsub a b) : float_scope.
Notation "a * b" := (fmul a b) : float_scope.
Notation "- a" := (fneg a) : float_scope.

(** [x < y] on real numbers, as a boolean. *)
Definition Rltb (x y : R) : bool := if Rlt_dec x y then true else false.

(** The truth value of a real number: Python's [bool(x)], numpy's nonzero. *)
Definition Rtruthy (x : R) : bool := if Req_dec_T x 0 then false else true.

(** Python's [a < b] on floats: false as soon as one side is NaN. *)
Definition fltb (a b : float) : bool :=
  match a, b with Some x, Some y => Rltb x y | _, _ => false end.

(** [math.isnan]. *)
Definition isnan (a : float) : bool :=
  match a with Some _ => false | None => true end.

(** ** Exceptions *)

Inductive exn := KeyError | IndexError | ValueError | UnboundLocalError.

Inductive outcome (A : Type) :=
| Ok (a : A)
| Raise (e : exn).
Arguments Ok {A} a.
Arguments Raise {A} e.

(** ** Vectors, matrices, frames of samples *)

(** The three position columns of an entity at a frame. *)
Record Vec3 := mkVec3 { pos_x : float; pos_y : float; pos_z : float }.

(** The three rotation columns: pitch = [rot_x], yaw = [rot_y],
    roll = [rot_z]. *)
Record Rot3 := mkRot3 { rot_x : float; rot_y : float; rot_z : float }.

(** The positional columns of one entity at one frame. *)
Record Row := mkRow { row_pos : Vec3; row_rot : Rot3 }.

(** A 3x3 numpy array, [mIJ] being the entry of row I and column J. *)
Record Mat3 := mkMat3 {
  m00 : float; m01 : float; m02 : float;
  m10 : float; m11 : float; m12 : float;
  m20 : float; m21 : float; m22 : float }.

(** A Series, or a DataFrame of one entity: the rows in order, each with
    its index label (a frame number).  [mkFrame] is the constructor
    [pd.DataFrame(data=..., index=...)], [index] and [values] the two
    attributes. *)
Abbreviation Frame A := (list (Z * A)%type).
Definition mkFrame {A : Type} (index : list Z) (values : list A) : Frame A :=
  zip index values.
Definition index {A : Type} (f : Frame A) : list Z := f.*1.
Definition values {A : Type} (f : Frame A) : list A := f.*2.

(** [hit_frames]: the positional columns of every entity (the players by
    name, and ["ball"]) at the candidate frames. *)
Record HitFrames := mkHitFrames {
  hf_index : list Z;
  hf_entity : gmap string (list Row) }.

Definition vec (x y z : R) : Vec3 := mkVec3 (Some x) (Some y) (Some z).

(** Subtraction of two position frames, column by column. *)
Definition vsub (a b : Vec3) : Vec3 :=
  mkVec3 (pos_x a - pos_x b)%fl (pos_y a - pos_y b)%fl (pos_z a - pos_z b)%fl.

(** The transpose of one 3x3 array. *)
Definition mat_transpose (m : Mat3) : Mat3 :=
  mkMat3 (m00 m) (m10 m) (m20 m)
         (m01 m) (m11 m) (m21 m)
         (m02 m) (m12 m) (m22 m).

(** [np.matmul] of a 3x3 array and a 3x1 column. *)
Definition matmul (m : Mat3) (v : Vec3) : Vec3 :=
  mkVec3 (m00 m * pos_x v + m01 m * pos_y v + m02 m * pos_z v)%fl
         (m10 m * pos_x v + m11 m * pos_y v + m12 m * pos_z v)%fl
         (m20 m * pos_x v + m21 m * pos_y v + m22 m * pos_z v)%fl.

(** ** The batch coordinate-transform pipeline *)

Definition get_player_ball_displacements
    (data_frame : HitFrames) (player_name : string) : outcome (Frame Vec3) :=
  match hf_entity data_frame !! player_name with
  | None => Raise KeyError
  | Some player_df =>
    match hf_entity data_frame !! "ball"%string with
    | None => Raise KeyError
    | Some ball_df =>
      Ok (mkFrame (hf_index data_frame)
                  (zip_with vsub (row_pos <$> player_df) (row_pos <$> ball_df)))
    end
  end.

Definition get_rotation_matrix_from_row
    (cos_roll sin_roll cos_pitch sin_pitch cos_yaw sin_yaw : float) : Mat3 :=
  mkMat3
    (cos_pitch * cos_yaw)%fl
    (cos_yaw * sin_pitch * sin_roll - cos_roll * sin_yaw)%fl
    (- cos_roll * cos_yaw * sin_pitch - sin_roll * sin_yaw)%fl
    (cos_pitch * sin_yaw)%fl
    (sin_yaw * sin_pitch * sin_roll + cos_roll * cos_yaw)%fl
    (- cos_roll * sin_yaw * sin_pitch + sin_roll * cos_yaw)%fl
    sin_pitch
    (- cos_pitch * sin_roll)%fl
    (cos_pitch * cos_roll)%fl.

(** One row of [get_rotation_matrices]: the six components are the cosines
    and sines of the row's roll, pitch and yaw. *)
Definition rotation_matrix (pitch yaw roll : float) : Mat3 :=
  get_rotation_matrix_from_row (fcos roll) (fsin roll)
                               (fcos pitch) (fsin pitch)
                               (fcos yaw) (fsin yaw).

Definition get_rotation_matrices
    (data_frame : HitFrames) (player_name : string) : outcome (Frame Mat3) :=
  match hf_entity data_frame !! player_name with
  | None => Raise KeyError
  | Some player_df =>
    Ok (mkFrame (hf_index data_frame)
                ((fun r => rotation_matrix (rot_x (row_rot r))
                                           (rot_y (row_rot r))
                                           (rot_z (row_rot r))) <$> player_df))
  end.

(** [np.transpose] of a Series.  numpy hands the call to the Series' own
    [transpose], and a Series is one-dimensional: it is returned as it is.
    The 3x3 arrays it holds as elements are not touched. *)
Definition np_transpose {A : Type} (s : Frame A) : Frame A := s.

(** [np.matmul] of a stack of N matrices and a stack of N columns: pairwise
    when the two have the same length, a single matrix is broadcast over all
    columns, any other combination is a shape error. *)
Definition matmul_stack (ms : list Mat3) (vs : list Vec3) : outcome (list Vec3) :=
  if decide (length ms = length vs) then Ok (zip_with matmul ms vs)
  else match ms with
       | [m] => Ok (matmul m <$> vs)
       | _ => Raise ValueError
       end.

Definition get_local_displacement
    (displacement : Frame Vec3) (rotation_matrices : Frame Mat3)
    : outcome (Frame Vec3) :=
  let displacement_vectors := values displacement in
  let inverse_rotation_matrices := np_transpose rotation_matrices in
  match values inverse_rotation_matrices with
  | [] => Raise ValueError            (* np.stack of no array *)
  | inverse_rotation_array =>
    match matmul_stack inverse_rotation_array displacement_vectors with
    | Raise e => Raise e
    | Ok local_displacement =>
      if decide (length local_displacement = length (index displacement))
      then Ok (mkFrame (index displacement) local_displacement)
      else Raise ValueError           (* data and index of different length *)
    end
  end.

(** The batch collision distances: the hitbox oracle applied to every row of
    a player's local displacements.  [get_collision_distance] is the method
    of the external [Hitbox] class. *)
Definition get_collision_distances {Hitbox : Type}
    (get_collision_distance : Hitbox -> Vec3 -> float)
    (local_ball_displacement : Frame Vec3) (player_hitbox : Hitbox)
    : Frame float :=
  (fun r => (r.1, get_collision_distance player_hitbox r.2))
    <$> local_ball_displacement.

(** ** The match model *)

(** One row of [game.ball]. *)
Record BallRow := mkBallRow {
  ball_pos : Vec3;
  ang_vel_x : float; ang_vel_y : float; ang_vel_z : float;
  hit_team_no : float }.

(** One entry of a player's loadout: the item id of the car. *)
Record Loadout := mkLoadout { car : Z }.

Module Player.
Record t := mk {
  name : string;
  is_orange : bool;
  loadout : list Loadout;
  data : Frame Row }.
End Player.

Module Team.
Record t := mk {
  is_orange : bool;
  players : list Player.t }.
End Team.

Module Game.
Record t := mk {
  teams : list Team.t;
  players : list Player.t;
  ball : Frame BallRow }.
End Game.

(** [df.loc[frame_number, columns]]: the row labelled [frame_number], a
    [KeyError] when the index has no such label.  It raises nothing else, so
    that an [except KeyError] around it catches whatever it raises. *)
Fixpoint loc {A : Type} (df : Frame A) (frame_number : Z) : outcome A :=
  match df with
  | [] => Raise KeyError
  | (i, row) :: rest => if decide (i = frame_number) then Ok row else loc rest frame_number
  end.

(** ** Kinematic frame selector *)

(** The three angular-velocity columns of a ball row. *)
Record AngVel := mkAngVel { av_x : float; av_y : float; av_z : float }.

Definition ang_vel (r : BallRow) : AngVel :=
  mkAngVel (ang_vel_x r) (ang_vel_y r) (ang_vel_z r).

(** One row of [DataFrame.diff]: the row minus the row before it, column by
    column; the first row has no row before it and is all NaN. *)
Definition diff_row (previous : option AngVel) (row : AngVel) : AngVel :=
  match previous with
  | None => mkAngVel NaN NaN NaN
  | Some p => mkAngVel (av_x row - av_x p)%fl (av_y row - av_y p)%fl
                       (av_z row - av_z p)%fl
  end.

Fixpoint diff_from (previous : option AngVel) (df : Frame AngVel) : Frame AngVel :=
  match df with
  | [] => []
  | (i, row) :: rest => (i, diff_row previous row) :: diff_from (Some row) rest
  end.

(** [DataFrame.diff]. *)
Definition diff (df : Frame AngVel) : Frame AngVel := diff_from None df.

(** The truth value of one cell under [any] with its default [skipna]: NaN
    is skipped, a number counts when it is not zero. *)
Definition cell_any (a : float) : bool :=
  match a with Some x => Rtruthy x | None => false end.

Definition row_any (r : AngVel) : bool :=
  cell_any (av_x r) || cell_any (av_y r) || cell_any (av_z r).

(** [DataFrame.any(axis=1)]. *)
Definition any_axis1 (df : Frame AngVel) : Frame bool :=
  (fun r => (r.1, row_any r.2)) <$> df.

Definition get_hit_frame_numbers_by_ball_ang_vel (game : Game.t) : list Z :=
  let ball_ang_vels := (fun r => (r.1, ang_vel r.2)) <$> Game.ball game in
  let diff_series := any_axis1 (diff ball_ang_vels) in
  let indices := (filter (fun r => snd r = true) diff_series).*1 in
  indices.

(** ** Labelled Series of the per-frame path *)

(** A Series of floats labelled by column name. *)
Abbreviation Series := (list (string * float)).

Definition rotation_series (r : Rot3) : Series :=
  [("rot_x"%string, rot_x r); ("rot_y"%string, rot_y r); ("rot_z"%string, rot_z r)].

Definition position_series (v : Vec3) : Series :=
  [("pos_x"%string, pos_x v); ("pos_y"%string, pos_y v); ("pos_z"%string, pos_z v)].

(** [Series.dropna]: the entries that are not NaN. *)
Definition dropna (s : Series) : Series :=
  filter (fun e => isnan e.2 = false) s.

(** [Series.any]: some entry is a number other than zero. *)
Definition series_any (s : Series) : bool :=
  existsb (fun e => cell_any e.2) s.

(** [s.loc[label]]. *)
Fixpoint series_at (s : Series) (label : string) : outcome float :=
  match s with
  | [] => Raise KeyError
  | (l, v) :: rest => if decide (l = label) then Ok v else series_at rest label
  end.

(** [s.loc[[a, b, c]].values]: the three values, a [KeyError] when a label
    is not in the Series (pandas 1.0 and later; before, only when none of
    the three is). *)
Definition series_loc3 (s : Series) (a b c : string) : outcome (float * float * float) :=
  match series_at s a, series_at s b, series_at s c with
  | Ok x, Ok y, Ok z => Ok (x, y, z)
  | _, _, _ => Raise KeyError
  end.

(** Lines 88-92: the rotation and the displacement are joined, the NaN
    entries dropped, and when [joined.any()] holds the displacement and the
    rotation are read back from what is left. *)
Definition joined_values (player_rotation : Rot3) (ball_displacement : Vec3)
    : outcome (option (Vec3 * Rot3)) :=
  let joined := dropna (rotation_series player_rotation ++ position_series ball_displacement) in
  if series_any joined then
    match series_loc3 joined "pos_x" "pos_y" "pos_z" with
    | Raise e => Raise e
    | Ok (dx, dy, dz) =>
      match series_loc3 joined "rot_x" "rot_y" "rot_z" with
      | Raise e => Raise e
      | Ok (rx, ry, rz) => Ok (Some (mkVec3 dx dy dz, mkRot3 rx ry rz))
      end
    end
  else Ok None.

(** ** Hit events and the state of the detection pass *)

Definition COLLISION_DISTANCE_HIGH_LIMIT : float := Some 500.
Definition COLLISION_DISTANCE_LOW_LIMIT : float := Some 250.

(** The [Hit] message of the stats schema; an optional field that was never
    set is [None]. *)
Record Hit (PlayerId : Type) := mkHit {
  frame_number : Z;
  goal_number : option Z;
  player_id : option PlayerId;
  collision_distance : float;
  ball_data : Vec3 }.
Arguments mkHit {PlayerId}.
Arguments frame_number {PlayerId} h.
Arguments goal_number {PlayerId} h.
Arguments player_id {PlayerId} h.
Arguments collision_distance {PlayerId} h.
Arguments ball_data {PlayerId} h.

(** The message [hits.add()] creates, every field at its default. *)
Definition new_hit {PlayerId : Type} : Hit PlayerId :=
  mkHit 0%Z None None (Some 0) (vec 0 0 0).

Definition set_frame_number {PlayerId} (v : Z) (h : Hit PlayerId) : Hit PlayerId :=
  mkHit v (goal_number h) (player_id h) (collision_distance h) (ball_data h).
Definition set_goal_number {PlayerId} (v : Z) (h : Hit PlayerId) : Hit PlayerId :=
  mkHit (frame_number h) (Some v) (player_id h) (collision_distance h) (ball_data h).
Definition set_player_id {PlayerId} (v : PlayerId) (h : Hit PlayerId) : Hit PlayerId :=
  mkHit (frame_number h) (goal_number h) (Some v) (collision_distance h) (ball_data h).
Definition set_collision_distance {PlayerId} (v : float) (h : Hit PlayerId) : Hit PlayerId :=
  mkHit (frame_number h) (goal_number h) (player_id h) v (ball_data h).
Definition set_ball_pos_x {PlayerId} (v : float) (h : Hit PlayerId) : Hit PlayerId :=
  mkHit (frame_number h) (goal_number h) (player_id h) (collision_distance h)
        (mkVec3 v (pos_y (ball_data h)) (pos_z (ball_data h))).
Definition set_ball_pos_y {PlayerId} (v : float) (h : Hit PlayerId) : Hit PlayerId :=
  mkHit (frame_number h) (goal_number h) (player_id h) (collision_distance h)
        (mkVec3 (pos_x (ball_data h)) v (pos_z (ball_data h))).
Definition set_ball_pos_z {PlayerId} (v : float) (h : Hit PlayerId) : Hit PlayerId :=
  mkHit (frame_number h) (goal_number h) (player_id h) (collision_distance h)
        (mkVec3 (pos_x (ball_data h)) (pos_y (ball_data h)) v).

(** The variables of the team loop that outlive one iteration.
    [ball_position] is assigned inside the [try] block and read when the hit
    is built; it is [None] as long as it was never assigned. *)
Record Locals := mkLocals {
  closest_player : option Player.t;
  closest_player_distance : float;
  ball_position : option Vec3 }.

(** The state of the detection pass.  [hits] is the repeated field
    [proto_game.game_stats.hits], which owns the messages; a [Hit] object is
    referred to by its position in [hits], and [all_hits] maps a frame
    number to such a reference. *)
Record State (PlayerId : Type) := mkState {
  hits : list (Hit PlayerId);
  all_hits : gmap Z nat;
  ball_position_var : option Vec3 }.
Arguments mkState {PlayerId}.
Arguments hits {PlayerId} s.
Arguments all_hits {PlayerId} s.
Arguments ball_position_var {PlayerId} s.

(** The key of [team_dict] a float is equal to: the keys are the booleans
    [is_orange], and Python finds [True] under 1.0 and [False] under 0.0. *)
Definition dict_key (v : float) : option bool :=
  match v with
  | Some x => if Req_dec_T x 1 then Some true
              else if Req_dec_T x 0 then Some false else None
  | None => None
  end.

Definition make_team_dict (teams : list Team.t) : gmap bool Team.t :=
  fold_left (fun team_dict team => <[Team.is_orange team := team]> team_dict) teams ∅.

(** The car of a player: the only entry of the loadout, or else the entry
    at position [is_orange]. *)
Definition player_car (player : Player.t) : outcome Z :=
  match Player.loadout player with
  | [l] => Ok (car l)
  | ls => match ls !! (if Player.is_orange player then 1 else 0)%nat with
          | Some l => Ok (car l)
          | None => Raise IndexError
          end
  end.

(** ** Striker resolver and hit record builder *)

Section Resolver.
Context {Hitbox PlayerId : Type}.
Variable get_hitbox : Z -> Hitbox.
Variable unrotate_position : Vec3 -> Rot3 -> Vec3.
Variable get_distance : Vec3 -> Hitbox -> float.
Variable id_creation : string -> PlayerId.

(** The displacement and the rotation a player is evaluated with at a
    frame (lines 79-92).  [Ok None] is a player that is skipped, by the
    [except KeyError] of the lookups or by [joined.any()]; [ball_position]
    is assigned on the way. *)
Definition player_sample (game : Game.t) (frame_number : Z) (player : Player.t)
    (st : Locals) : outcome (option (Vec3 * Rot3)) * Locals :=
  match loc (Player.data player) frame_number with
  | Raise _ => (Ok None, st)
  | Ok player_row =>
    let player_position := row_pos player_row in
    match loc (Game.ball game) frame_number with
    | Raise _ => (Ok None, st)
    | Ok ball_row =>
      let ball_position := ball_pos ball_row in
      let st := mkLocals (closest_player st) (closest_player_distance st)
                         (Some ball_position) in
      let ball_displacement := vsub ball_position player_position in
      let player_rotation := row_rot player_row in
      (joined_values player_rotation ball_displacement, st)
    end
  end.

(** One iteration of [for player in team.players] (lines 75-98). *)
Definition player_step (game : Game.t) (frame_number : Z) (player : Player.t)
    (st : Locals) : outcome Locals :=
  match player_car player with
  | Raise e => Raise e
  | Ok car_id =>
    let player_hitbox := get_hitbox car_id in
    match player_sample game frame_number player st with
    | (Raise e, _) => Raise e
    | (Ok None, st) => Ok st
    | (Ok (Some (ball_displacement, player_rotation)), st) =>
      let ball_unrotated_displacement :=
        unrotate_position ball_displacement player_rotation in
      let collision_distance :=
        get_distance ball_unrotated_displacement player_hitbox in
      if fltb collision_distance (closest_player_distance st)
      then Ok (mkLocals (Some player) collision_distance (ball_position st))
      else Ok st
    end
  end.

Fixpoint team_loop (game : Game.t) (frame_number : Z) (players : list Player.t)
    (st : Locals) : outcome Locals :=
  match players with
  | [] => Ok st
  | player :: rest =>
    match player_step game frame_number player st with
    | Raise e => Raise e
    | Ok st => team_loop game frame_number rest st
    end
  end.

(** Lines 102-107: the closest player is the striker when its distance is
    below the high limit. *)
Definition accept (st : Locals) : option Player.t * float :=
  if fltb (closest_player_distance st) COLLISION_DISTANCE_HIGH_LIMIT
  then (closest_player st, closest_player_distance st)
  else (None, Some 999999).

(** Lines 69-71: the team responsible for the frame, [None] when one of
    the two lookups raises [KeyError]. *)
Definition responsible_team (game : Game.t) (team_dict : gmap bool Team.t)
    (frame_number : Z) : option Team.t :=
  match loc (Game.ball game) frame_number with
  | Raise _ => None
  | Ok ball_row =>
    match dict_key (hit_team_no ball_row) with
    | None => None
    | Some key => team_dict !! key
    end
  end.

(** Lines 110-120: the hit is added to [proto_game.game_stats.hits], its
    fields are set through the reference [hit], and the reference is
    stored in [all_hits].  [data_frame] is the column
    [('game', 'goal_number')] of the argument of that name, an integral
    goal number or NaN. *)
Definition build_hit (data_frame : Frame (option Z)) (frame_number : Z)
    (hit_player : Player.t) (hit_collision_distance : float)
    (ball_position : option Vec3) (st : State PlayerId)
    : outcome unit * State PlayerId :=
  let hit := length (hits st) in
  let store := hits st ++ [new_hit] in
  let store := alter (set_frame_number frame_number) hit store in
  match loc data_frame frame_number with
  | Raise e => (Raise e, mkState store (all_hits st) ball_position)
  | Ok goal_number =>
    let store := match goal_number with
                 | Some g => alter (set_goal_number g) hit store
                 | None => store
                 end in
    let store := alter (set_player_id (id_creation (Player.name hit_player))) hit store in
    let store := alter (set_collision_distance hit_collision_distance) hit store in
    match ball_position with
    | None => (Raise UnboundLocalError, mkState store (all_hits st) ball_position)
    | Some position =>
      let store := alter (set_ball_pos_x (pos_x position)) hit store in
      let store := alter (set_ball_pos_y (pos_y position)) hit store in
      let store := alter (set_ball_pos_z (pos_z position)) hit store in
      (Ok tt, mkState store (<[frame_number := hit]> (all_hits st)) ball_position)
    end
  end.

(** One iteration of [for frame_number in hit_frame_numbers]
    (lines 68-120). *)
Definition frame_step (game : Game.t) (team_dict : gmap bool Team.t)
    (data_frame : Frame (option Z)) (frame_number : Z) (st : State PlayerId)
    : outcome unit * State PlayerId :=
  match responsible_team game team_dict frame_number with
  | None => (Ok tt, st)
  | Some team =>
    match team_loop game frame_number (Team.players team)
                    (mkLocals None (Some 999999) (ball_position_var st)) with
    | Raise e => (Raise e, st)
    | Ok locals =>
      match accept locals with
      | (None, _) =>
        (Ok tt, mkState (hits st) (all_hits st) (ball_position locals))
      | (Some hit_player, hit_collision_distance) =>
        build_hit data_frame frame_number hit_player hit_collision_distance
                  (ball_position locals) st
      end
    end
  end.

Fixpoint frames_loop (game : Game.t) (team_dict : gmap bool Team.t)
    (data_frame : Frame (option Z)) (hit_frame_numbers : list Z)
    (st : State PlayerId) : outcome unit * State PlayerId :=
  match hit_frame_numbers with
  | [] => (Ok tt, st)
  | frame_number :: rest =>
    match frame_step game team_dict data_frame frame_number st with
    | (Raise e, st) => (Raise e, st)
    | (Ok _, st) => frames_loop game team_dict data_frame rest st
    end
  end.

(** [BaseHit.get_hits_from_game].  [proto_hits] is
    [proto_game.game_stats.hits] on entry; the result is what the call
    returns or raises, together with [proto_game.game_stats.hits] on exit.
    The tables of lines 38-64 are built from [data_frame] before the loop
    and never read by it: they are the pipeline functions above. *)
Definition get_hits_from_game (game : Game.t) (proto_hits : list (Hit PlayerId))
    (data_frame : Frame (option Z))
    : outcome (gmap Z nat) * list (Hit PlayerId) :=
  let team_dict := make_team_dict (Game.teams game) in
  let hit_frame_numbers := get_hit_frame_numbers_by_ball_ang_vel game in
  match frames_loop game team_dict data_frame hit_frame_numbers
                    (mkState proto_hits ∅ None) with
  | (Ok _, st) => (Ok (all_hits st), hits st)
  | (Raise e, st) => (Raise e, hits st)
  end.

(** *** Quantities the specification speaks about *)

(** The collision distance the resolver evaluates a player with at a
    frame: [None] when the player is not evaluated there. *)
Definition evaluated_distance (game : Game.t) (frame_number : Z)
    (player : Player.t) : option float :=
  match player_car player,
        (player_sample game frame_number player (mkLocals None NaN None)).1 with
  | Ok car_id, Ok (Some (ball_displacement, player_rotation)) =>
    Some (get_distance (unrotate_position ball_displacement player_rotation)
                       (get_hitbox car_id))
  | _, _ => None
  end.

(** The striker accepted at a frame and its distance, when the team loop
    of the frame completes. *)
Definition resolve (game : Game.t) (frame_number : Z)
    : outcome (option (Player.t * float)) :=
  match responsible_team game (make_team_dict (Game.teams game)) frame_number with
  | None => Ok None
  | Some team =>
    match team_loop game frame_number (Team.players team)
                    (mkLocals None (Some 999999) None) with
    | Raise e => Raise e
    | Ok locals =>
      match accept locals with
      | (Some hit_player, hit_collision_distance) =>
        Ok (Some (hit_player, hit_collision_distance))
      | (None, _) => Ok None
      end
    end
  end.

(** A striker is accepted at the frame. *)
Definition accepted (game : Game.t) (frame_number : Z) : bool :=
  match resolve game frame_number with
  | Ok (Some _) => true
  | _ => false
  end.

End Resolver.

(** ** Predicates of the specification *)

(** A component is defined in both samples and has changed from [a] to
    [b]. *)
Definition component_changed (a b : float) : Prop :=
  exists x y, a = Some x /\ b = Some y /\ x <> y.

(** At least one of the three components has changed. *)
Definition ang_vel_changed (previous current : AngVel) : Prop :=
  component_changed (av_x previous) (av_x current) \/
  component_changed (av_y previous) (av_y current) \/
  component_changed (av_z previous) (av_z current).

(** The comparison of a component cannot be evaluated: the prior or the
    current sample is undefined. *)
Definition component_undefined (a b : float) : Prop := a = NaN \/ b = NaN.

(** Once a player of the frame is the closest one, [ball_position] holds
    the position of the ball at that frame. *)
Definition ball_position_current (game : Game.t) (f : Z) (st : Locals) : Prop :=
  closest_player st <> None ->
  exists brow, loc (Game.ball game) f = Ok brow /\
               ball_position st = Some (ball_pos brow).


(** ** The remaining functions of the module *)

(** [np.sqrt]: NaN on a negative number. *)
Definition fsqrt (a : float) : float :=
  match a with
  | Some x => if Rltb x 0 then NaN else Some (sqrt x)
  | None => NaN
  end.

(** [Series.sum] with its default [skipna]: the NaN cells are skipped, and
    the sum of no cell is 0. *)
Definition sum_skipna (cells : list float) : float :=
  Some (fold_right (fun c acc => match c with Some x => x + acc | None => acc end)
                   0 cells).

(** One row of [get_distance_from_displacements]. *)
Definition row_distance (v : Vec3) : float :=
  fsqrt (sum_skipna [(pos_x v * pos_x v)%fl; (pos_y v * pos_y v)%fl;
                     (pos_z v * pos_z v)%fl]).

Definition get_distance_from_displacements (data_frame : Frame Vec3) : Frame float :=
  (fun r => (r.1, row_distance r.2)) <$> data_frame.

(** The determinant of a 3x3 array. *)
Definition det3 (m : Mat3) : float :=
  (m00 m * (m11 m * m22 m - m12 m * m21 m)
   - m01 m * (m10 m * m22 m - m12 m * m20 m)
   + m02 m * (m10 m * m21 m - m11 m * m20 m))%fl.

(** [BaseHit.get_ball_data]: the row of the ball at the frame of the hit. *)
Definition get_ball_data {PlayerId : Type} (game : Game.t) (hit : Hit PlayerId)
    : outcome BallRow :=
  loc (Game.ball game) (frame_number hit).

(** Sequencing of computations that may raise: [x ← o; k] runs [k] on the
    value of [o], or raises what [o] raises. *)
#[global] Instance outcome_bind : MBind outcome :=
  fun A B k o => match o with Ok a => k a | Raise e => Raise e end.

(** A dictionary keyed by [player.name], filled player by player: a later
    player of the same name replaces the earlier one, and the first
    exception ends the filling. *)
Fixpoint player_dict {V : Type} (value : Player.t -> outcome V)
    (players : list Player.t) (dict : gmap string V) : outcome (gmap string V) :=
  match players with
  | [] => Ok dict
  | player :: rest =>
    v ← value player;
    player_dict value rest (<[Player.name player := v]> dict)
  end.

(** A list comprehension over the players. *)
Fixpoint player_list {V : Type} (value : Player.t -> outcome V)
    (players : list Player.t) : outcome (list V) :=
  match players with
  | [] => Ok []
  | player :: rest =>
    v ← value player;
    vs ← player_list value rest;
    Ok (v :: vs)
  end.

Section Batch.
Context {Hitbox : Type}.
(** The constructor [Hitbox(car_item_id)] and the method
    [Hitbox.get_collision_distance] of the class imported from
    [.hitbox.hitbox]. *)
Variable Hitbox_init : Z -> Hitbox.
Variable get_collision_distance : Hitbox -> Vec3 -> float.

Definition get_player_hitboxes (game : Game.t) : outcome (gmap string Hitbox) :=
  player_dict (fun player => car_item_id ← player_car player;
                             Ok (Hitbox_init car_item_id))
              (Game.players game) ∅.

(** Lines 40-60 of [get_hits_from_game]: the tables built from [hit_frames]
    before the loop over the candidate frames.  The result is the two tables
    that are concatenated, the world distances by player name and the
    collision distances, one column per player; [pd.concat] raises
    [ValueError] when it is given no column. *)
Definition batch_tables (game : Game.t) (hit_frames : HitFrames)
    : outcome (gmap string (Frame float) * list (string * Frame float)) :=
  player_displacements ←
    player_dict (fun player => get_player_ball_displacements hit_frames (Player.name player))
                (Game.players game) (∅ : gmap string (Frame Vec3));
  let player_distances : gmap string (Frame float) :=
    get_distance_from_displacements <$> player_displacements in
  if decide (size player_distances = 0%nat) then Raise ValueError else
  rotation_matrices ←
    player_dict (fun player => get_rotation_matrices hit_frames (Player.name player))
                (Game.players game) (∅ : gmap string (Frame Mat3));
  local_displacements ←
    player_dict (fun player =>
                   match player_displacements !! Player.name player,
                         rotation_matrices !! Player.name player with
                   | Some displacement, Some matrices =>
                     get_local_displacement displacement matrices
                   | _, _ => Raise KeyError
                   end)
                (Game.players game) (∅ : gmap string (Frame Vec3));
  player_hitboxes ← get_player_hitboxes game;
  collision_distances ←
    player_list (fun player =>
                   match local_displacements !! Player.name player,
                         player_hitboxes !! Player.name player with
                   | Some local_displacement, Some hitbox =>
                     Ok (Player.name player,
                         get_collision_distances get_collision_distance
                                                 local_displacement hitbox)
                   | _, _ => Raise KeyError
                   end)
                (Game.players game);
  match collision_distances with
  | [] => Raise ValueError
  | _ => Ok (player_distances, collision_distances)
  end.

End Batch.

(** The row of the batch local displacement of a player, from the player's
    row and the ball's row at a frame. *)
Definition batch_local_row (player_row ball_row : Row) : Vec3 :=
  matmul (rotation_matrix (rot_x (row_rot player_row)) (rot_y (row_rot player_row))
                          (rot_z (row_rot player_row)))
         (vsub (row_pos player_row) (row_pos ball_row)).

(** ** Sample matches *)

(** The candidate frame 7 of a player "p" at (1, 0, 0) with yaw pi/2, the
    ball at the origin. *)
Definition quarter_turn_frames : HitFrames :=
  mkHitFrames [7%Z]
    (<["p"%string := [mkRow (vec 1 0 0) (mkRot3 (Some 0) (Some (PI / 2)) (Some 0))] ]>
      (<["ball"%string := [mkRow (vec 0 0 0) (mkRot3 (Some 0) (Some 0) (Some 0))] ]> ∅)).

(** Three frames of a ball whose angular velocity is constant over frames
    0 and 1 and changes at frame 2; at frame 3 it is undefined. *)
Definition still_row : BallRow :=
  mkBallRow (vec 0 0 100) (Some 0) (Some 0) (Some 0) (Some 0).
Definition spun_row : BallRow :=
  mkBallRow (vec 0 0 100) (Some 1) (Some 0) (Some 0) (Some 0).
Definition lost_row : BallRow :=
  mkBallRow (vec 0 0 100) NaN NaN NaN (Some 0).

Definition spin_game : Game.t :=
  Game.mk [] [] [(0%Z, still_row); (1%Z, still_row); (2%Z, spun_row); (3%Z, lost_row)].

(** A match of three frames: the angular velocity of the ball is constant
    over frames 0 and 1 and changes at frame 2; one team of one player,
    level and at the origin, the ball 100 units above it. *)
Definition level_row : Row := mkRow (vec 0 0 0) (mkRot3 (Some 0) (Some 0) (Some 0)).

Definition lone_player : Player.t :=
  Player.mk "p" false [mkLoadout 23] [(0%Z, level_row); (1%Z, level_row); (2%Z, level_row)].

Definition lone_team : Team.t := Team.mk false [lone_player].

Definition lone_game : Game.t :=
  Game.mk [lone_team] [lone_player]
          [(0%Z, still_row); (1%Z, still_row); (2%Z, spun_row)].

(** The same match, the rotation of the player undefined at frame 2. *)
Definition lost_rotation_row : Row := mkRow (vec 0 0 0) (mkRot3 NaN NaN NaN).

Definition tumbling_player : Player.t :=
  Player.mk "p" false [mkLoadout 23]
            [(0%Z, level_row); (1%Z, level_row); (2%Z, lost_rotation_row)].

Definition tumbling_team : Team.t := Team.mk false [tumbling_player].

Definition tumbling_game : Game.t :=
  Game.mk [tumbling_team] [tumbling_player]
          [(0%Z, still_row); (1%Z, still_row); (2%Z, spun_row)].

(** The match [lone_game] with the ball at the very position of the
    player. *)
Definition centre_row : BallRow :=
  mkBallRow (vec 0 0 0) (Some 1) (Some 0) (Some 0) (Some 0).

Definition overlap_game : Game.t :=
  Game.mk [lone_team] [lone_player]
          [(0%Z, still_row); (1%Z, still_row); (2%Z, centre_row)].

(** A team of two players at the same place: both are evaluated with the
    same distance at frame 2. *)
Definition second_player : Player.t :=
  Player.mk "q" false [mkLoadout 23] [(0%Z, level_row); (1%Z, level_row); (2%Z, level_row)].

Definition duo_team : Team.t := Team.mk false [lone_player; second_player].

Definition duo_game : Game.t :=
  Game.mk [duo_team] [lone_player; second_player]
          [(0%Z, still_row); (1%Z, still_row); (2%Z, spun_row)].

(** The goal-number column of the three frames: no goal is marked. *)
Definition no_goal_column : Frame (option Z) := [(0%Z, None); (1%Z, None); (2%Z, None)].

(** Stand-ins for the helpers the module does not define, for the sample
    runs: every car has the same hitbox, the displacement is left as it is,
    and the distance is the height of the ball over a roof at 90. *)
Definition sample_hitbox (car_item_id : Z) : unit := tt.
Definition sample_unrotate (ball_displacement : Vec3) (player_rotation : Rot3) : Vec3 :=
  ball_displacement.
Definition sample_distance (local_displacement : Vec3) (hitbox : unit) : float :=
  (pos_z local_displacement - Some 90)%fl.
Definition sample_id (name : string) : string := name.

(** [hit_frames] of [lone_game]: the positional columns of the player and of
    the ball at the candidate frame 2. *)
Definition lone_hit_frames : HitFrames :=
  mkHitFrames [2%Z]
    (<["p"%string := [level_row] ]>
      (<["ball"%string := [mkRow (vec 0 0 100) (mkRot3 (Some 0) (Some 0) (Some 0))] ]> ∅)).

(** * Properties *)

(** ** Real arithmetic behind the float tests *)

Lemma Rltb_true (x y : R) : x < y -> Rltb x y = true.
Proof. intros H. unfold Rltb. destruct (Rlt_dec x y); [reflexivity | contradiction]. Qed.

Lemma Rltb_false (x y : R) : ~ x < y -> Rltb x y = false.
Proof. intros H. unfold Rltb. destruct (Rlt_dec x y); [contradiction | reflexivity]. Qed.

Lemma Rltb_spec (x y : R) : Rltb x y = true <-> x < y.
Proof.
  unfold Rltb. destruct (Rlt_dec x y); split; intros; auto; discriminate.
Qed.

Lemma Rtruthy_true (x : R) : x <> 0 -> Rtruthy x = true.
Proof. intros H. unfold Rtruthy. destruct (Req_dec_T x 0); [contradiction | reflexivity]. Qed.

Lemma Rtruthy_false (x : R) : x = 0 -> Rtruthy x = false.
Proof. intros H. unfold Rtruthy. destruct (Req_dec_T x 0); [reflexivity | contradiction]. Qed.

Lemma Rtruthy_spec (x : R) : Rtruthy x = true <-> x <> 0.
Proof.
  unfold Rtruthy. destruct (Req_dec_T x 0); split; intros; auto; try discriminate.
Qed.

(** ** The rotation matrix is orthonormal *)

Lemma sin_cos_unit (a : R) : sin a * sin a + cos a * cos a = 1.
Proof. pose proof (sin2_cos2 a) as H. unfold Rsqr in H. exact H. Qed.

(** C9. For every rotation triple (pitch, yaw, roll) and every world
    displacement d, the matrix R that [get_rotation_matrices] builds for the
    triple, applied to transpose(R) * d, gives back d: over the real numbers
    R is orthonormal. *)
Theorem rotation_round_trip (pitch yaw roll x y z : R) :
  let R := rotation_matrix (Some pitch) (Some yaw) (Some roll) in
  matmul R (matmul (mat_transpose R) (vec x y z)) = vec x y z.
Proof.
  cbv [rotation_matrix get_rotation_matrix_from_row matmul mat_transpose vec
       fcos fsin fadd fsub fmul fneg
       m00 m01 m02 m10 m11 m12 m20 m21 m22 pos_x pos_y pos_z].
  pose proof (sin_cos_unit pitch) as Hp.
  pose proof (sin_cos_unit yaw) as Hy.
  pose proof (sin_cos_unit roll) as Hr.
  set (cp := cos pitch) in *. set (sp := sin pitch) in *.
  set (cy := cos yaw) in *. set (sy := sin yaw) in *.
  set (cr := cos roll) in *. set (sr := sin roll) in *.
  clearbody cp sp cy sy cr sr.
  f_equal; f_equal; nsatz.
Qed.

(** ** The batch pipeline applies R, not its transpose *)

(** On a batch of as many matrices as displacements, at least one,
    [get_local_displacement] multiplies every displacement by the matrix of
    its frame as it is. *)
Lemma get_local_displacement_rows (displacement : Frame Vec3)
    (rotation_matrices : Frame Mat3) :
  length rotation_matrices = length displacement ->
  rotation_matrices <> [] ->
  get_local_displacement displacement rotation_matrices =
  Ok (mkFrame (index displacement)
              (zip_with matmul (values rotation_matrices) (values displacement))).
Proof.
  intros Hlen Hne. unfold get_local_displacement, np_transpose, matmul_stack.
  destruct (values rotation_matrices) as [|m ms] eqn:Hv.
  - destruct rotation_matrices; [contradiction | discriminate].
  - rewrite <- Hv. unfold values, index in *.
    rewrite !length_fmap.
    destruct (decide (length rotation_matrices = length displacement)) as [_|]; [|contradiction].
    rewrite length_zip_with, !length_fmap, Hlen, Nat.min_id.
    destruct (decide (length displacement = length displacement)); [|contradiction].
    rewrite Hv. reflexivity.
Qed.

Lemma quarter_turn_matrix :
  rotation_matrix (Some 0) (Some (PI / 2)) (Some 0) =
  mkMat3 (Some 0) (Some (-1)) (Some 0)
         (Some 1) (Some 0) (Some 0)
         (Some 0) (Some 0) (Some 1).
Proof.
  cbv [rotation_matrix get_rotation_matrix_from_row fcos fsin fadd fsub fmul fneg].
  rewrite cos_0, sin_0, cos_PI2, sin_PI2.
  f_equal; f_equal; lra.
Qed.

(** C1. At the candidate frame of [quarter_turn_frames] the world
    displacement is (1, 0, 0) and R is the quarter turn about z.  The
    pipeline returns R * world = (0, 1, 0) as the local displacement, whereas
    transpose(R) * world is (0, -1, 0): the displacement is not rotated by
    the transpose. *)
Theorem local_displacement_applies_R_untransposed :
  exists displacement rotation_matrices R,
    get_player_ball_displacements quarter_turn_frames "p" = Ok displacement /\
    displacement = [(7%Z, vec 1 0 0)] /\
    get_rotation_matrices quarter_turn_frames "p" = Ok rotation_matrices /\
    rotation_matrices = [(7%Z, R)] /\
    R = rotation_matrix (Some 0) (Some (PI / 2)) (Some 0) /\
    get_local_displacement displacement rotation_matrices = Ok [(7%Z, vec 0 1 0)] /\
    matmul (mat_transpose R) (vec 1 0 0) = vec 0 (-1) 0 /\
    vec 0 1 0 <> vec 0 (-1) 0.
Proof.
  exists [(7%Z, vec 1 0 0)], [(7%Z, rotation_matrix (Some 0) (Some (PI / 2)) (Some 0))],
         (rotation_matrix (Some 0) (Some (PI / 2)) (Some 0)).
  assert (Hp : hf_entity quarter_turn_frames !! "p"%string =
               Some [mkRow (vec 1 0 0) (mkRot3 (Some 0) (Some (PI / 2)) (Some 0))])
    by (unfold quarter_turn_frames; cbn [hf_entity]; apply lookup_insert_eq).
  assert (Hb : hf_entity quarter_turn_frames !! "ball"%string =
               Some [mkRow (vec 0 0 0) (mkRot3 (Some 0) (Some 0) (Some 0))]).
  { unfold quarter_turn_frames; cbn [hf_entity].
    rewrite lookup_insert_ne by discriminate. apply lookup_insert_eq. }
  split_and!.
  - unfold get_player_ball_displacements. rewrite Hp, Hb.
    cbn [fmap list_fmap zip_with row_pos mkFrame zip hf_index quarter_turn_frames].
    do 3 f_equal. cbv [vsub vec pos_x pos_y pos_z fsub]. f_equal; f_equal; lra.
  - reflexivity.
  - unfold get_rotation_matrices. rewrite Hp. reflexivity.
  - reflexivity.
  - reflexivity.
  - rewrite get_local_displacement_rows by (reflexivity || discriminate).
    cbn [index values fmap list_fmap zip_with mkFrame zip fst snd].
    rewrite quarter_turn_matrix.
    do 3 f_equal. cbv [matmul vec fadd fmul m00 m01 m02 m10 m11 m12 m20 m21 m22 pos_x pos_y pos_z].
    f_equal; f_equal; lra.
  - rewrite quarter_turn_matrix.
    cbv [matmul mat_transpose vec fadd fmul m00 m01 m02 m10 m11 m12 m20 m21 m22 pos_x pos_y pos_z].
    f_equal; f_equal; lra.
  - intros H. injection H as H. lra.
Qed.

(** ** Kinematic frame selector *)

Lemma cell_any_fsub (a b : float) :
  cell_any (b - a)%fl = true <-> component_changed a b.
Proof.
  unfold component_changed. destruct a as [x|], b as [y|]; cbn.
  - rewrite Rtruthy_spec. split.
    + intros H. exists x, y. split_and!; [done..|]. intros ->. apply H. lra.
    + intros (x' & y' & Hx & Hy & Hne) Heq.
      injection Hx as <-. injection Hy as <-. apply Hne. lra.
  - split; [discriminate | intros (? & ? & _ & [=] & _)].
  - split; [discriminate | intros (? & ? & [=] & _)].
  - split; [discriminate | intros (? & ? & [=] & _)].
Qed.

Lemma row_any_diff_row (p c : AngVel) :
  row_any (diff_row (Some p) c) = true <-> ang_vel_changed p c.
Proof.
  unfold row_any, ang_vel_changed, diff_row. cbn [av_x av_y av_z].
  rewrite !orb_true_iff, !cell_any_fsub. tauto.
Qed.

(** The candidate frames of a ball frame whose first row comes after a row
    [previous]. *)
Local Abbreviation frames_from previous ball :=
  ((filter (fun r => r.2 = true)
      (any_axis1 (diff_from previous ((fun r => (r.1, ang_vel r.2)) <$> ball)))).*1).

Lemma frames_from_cons (previous : option AngVel) (f : Z) (c : BallRow)
    (rest : Frame BallRow) :
  (filter (fun r => r.2 = true)
     (any_axis1 (diff_from previous ((fun r => (r.1, ang_vel r.2)) <$> (f, c) :: rest)))).*1 =
  (if row_any (diff_row previous (ang_vel c)) then [f] else []) ++
  (filter (fun r => r.2 = true)
     (any_axis1 (diff_from (Some (ang_vel c)) ((fun r => (r.1, ang_vel r.2)) <$> rest)))).*1.
Proof.
  cbn [fmap list_fmap diff_from any_axis1 fst snd].
  rewrite filter_cons. cbn [snd].
  destruct (row_any (diff_row previous (ang_vel c))); cbn.
  - destruct (decide (true = true)); [reflexivity | contradiction].
  - destruct (decide (false = true)); [discriminate | reflexivity].
Qed.

Lemma frames_from_sublist (previous : option AngVel) (ball : Frame BallRow) :
  (filter (fun r => r.2 = true)
     (any_axis1 (diff_from previous ((fun r => (r.1, ang_vel r.2)) <$> ball)))).*1
  `sublist_of` ball.*1.
Proof.
  revert previous. induction ball as [|[f c] rest IH]; intros previous.
  - constructor.
  - rewrite frames_from_cons. cbn [fmap list_fmap fst].
    destruct (row_any _); cbn [app].
    + constructor. apply IH.
    + constructor. apply IH.
Qed.

Lemma row_any_first (c : AngVel) : row_any (diff_row None c) = false.
Proof. reflexivity. Qed.

Lemma frames_from_elem (previous : option AngVel) (ball : Frame BallRow) (f : Z) :
  f ∈ frames_from previous ball <->
  (exists c post, ball = (f, c) :: post /\
                  row_any (diff_row previous (ang_vel c)) = true) \/
  (exists pre p c post, ball = pre ++ p :: (f, c) :: post /\
                        ang_vel_changed (ang_vel p.2) (ang_vel c)).
Proof.
  revert previous. induction ball as [|[g d] rest IH]; intros previous.
  - cbn. rewrite elem_of_nil. split; [tauto|].
    intros [(c & post & [=] & _) | (pre & p & c & post & H & _)].
    destruct pre; discriminate.
  - rewrite frames_from_cons, elem_of_app, IH. split.
    + intros [Hhd | [(c & post & -> & Hc) | (pre & p & c & post & -> & Hc)]].
      * destruct (row_any (diff_row previous (ang_vel d))) eqn:Hd.
        -- apply list_elem_of_singleton in Hhd as ->. left. eauto.
        -- apply elem_of_nil in Hhd as [].
      * right. exists [], (g, d), c, post. split; [reflexivity|].
        apply row_any_diff_row, Hc.
      * right. exists ((g, d) :: pre), p, c, post. split; [reflexivity | exact Hc].
    + intros [(c & post & Heq & Hc) | (pre & p & c & post & Heq & Hc)].
      * injection Heq as -> -> ->. left. rewrite Hc. apply list_elem_of_singleton. reflexivity.
      * right. destruct pre as [|q pre]; cbn in Heq; injection Heq as <- ->.
        -- left. exists c, post. split; [reflexivity|].
           apply row_any_diff_row, Hc.
        -- right. eauto 6.
Qed.

Lemma StronglySorted_lt_sublist (l k : list Z) :
  l `sublist_of` k -> StronglySorted Z.lt k -> StronglySorted Z.lt l.
Proof.
  induction 1 as [|x l k Hsub IH|x l k Hsub IH]; intros Hk.
  - constructor.
  - apply StronglySorted_inv in Hk as [Hk Hx]. constructor; [auto|].
    apply list.Forall_forall. intros y Hy.
    apply (proj1 (list.Forall_forall _ _) Hx). eapply elem_of_sublist; eauto.
  - apply StronglySorted_inv in Hk as [Hk _]. auto.
Qed.

Lemma StronglySorted_lt_NoDup (l : list Z) : StronglySorted Z.lt l -> NoDup l.
Proof.
  induction 1 as [|x l Hl IH Hx]; constructor; [|exact IH].
  intros Hin. apply (proj1 (list.Forall_forall _ _) Hx) in Hin. lia.
Qed.

(** In a frame whose index has no duplicate, a label names one place. *)
Lemma frame_split_unique {A : Type} (df pre pre' post post' : Frame A) (f : Z) (c c' : A) :
  NoDup df.*1 ->
  df = pre ++ (f, c) :: post -> df = pre' ++ (f, c') :: post' ->
  pre = pre' /\ c = c'.
Proof.
  revert df pre'. induction pre as [|q pre IH]; intros df pre' Hnd -> Heq.
  - destruct pre' as [|q' pre']; cbn in Heq.
    + injection Heq as <- _. done.
    + injection Heq as <- ->. exfalso.
      cbn in Hnd. apply NoDup_cons in Hnd as [Hnot _]. apply Hnot.
      rewrite fmap_app. apply elem_of_app. right. cbn. left.
  - destruct pre' as [|q' pre']; cbn in Heq.
    + injection Heq as -> <-. exfalso.
      cbn in Hnd. apply NoDup_cons in Hnd as [Hnot _]. apply Hnot.
      rewrite fmap_app. apply elem_of_app. right. cbn. left.
    + injection Heq as <- Heq. cbn in Hnd. apply NoDup_cons in Hnd as [_ Hnd].
      destruct (IH _ pre' Hnd eq_refl Heq) as [-> ->]. done.
Qed.

(** C6. On a ball frame indexed by increasing frame numbers, the selector
    returns exactly the frames at which a component of the angular velocity,
    defined in this sample and in the one before, differs from the one
    before; the first frame is never returned; a frame none of whose
    components can be compared is not returned; and the result is in
    increasing frame order, without duplicates. *)
Theorem candidate_frames_are_changes (game : Game.t) :
  StronglySorted Z.lt (index (Game.ball game)) ->
  let frames := get_hit_frame_numbers_by_ball_ang_vel game in
  (forall pre p f c post,
      Game.ball game = pre ++ p :: (f, c) :: post ->
      f ∈ frames <-> ang_vel_changed (ang_vel p.2) (ang_vel c)) /\
  (forall f, f ∈ frames ->
      exists pre p c post,
        Game.ball game = pre ++ p :: (f, c) :: post /\
        ang_vel_changed (ang_vel p.2) (ang_vel c)) /\
  (forall f c rest, Game.ball game = (f, c) :: rest -> f ∉ frames) /\
  (forall pre p f c post,
      Game.ball game = pre ++ p :: (f, c) :: post ->
      component_undefined (ang_vel_x p.2) (ang_vel_x c) ->
      component_undefined (ang_vel_y p.2) (ang_vel_y c) ->
      component_undefined (ang_vel_z p.2) (ang_vel_z c) ->
      f ∉ frames) /\
  frames `sublist_of` index (Game.ball game) /\
  StronglySorted Z.lt frames /\
  NoDup frames.
Proof.
  intros Hsorted frames.
  assert (Hfrom : forall f, f ∈ frames ->
            exists pre p c post,
              Game.ball game = pre ++ p :: (f, c) :: post /\
              ang_vel_changed (ang_vel p.2) (ang_vel c)).
  { intros f Hf. apply frames_from_elem in Hf
      as [(c & post & _ & Hc) | Hf]; [|exact Hf].
    rewrite row_any_first in Hc. discriminate. }
  assert (Hnd : NoDup (Game.ball game).*1) by (apply StronglySorted_lt_NoDup, Hsorted).
  assert (Hiff : forall pre p f c post,
            Game.ball game = pre ++ p :: (f, c) :: post ->
            f ∈ frames <-> ang_vel_changed (ang_vel p.2) (ang_vel c)).
  { intros pre p f c post Hball. split.
    - intros Hf. destruct (Hfrom f Hf) as (pre' & p' & c' & post' & Hball' & Hc).
      destruct (frame_split_unique (Game.ball game) (pre ++ [p]) (pre' ++ [p'])
                  post post' f c c' Hnd) as [Hpre ->].
      + rewrite <- app_assoc. exact Hball.
      + rewrite <- app_assoc. exact Hball'.
      + apply app_inj_tail in Hpre as [_ ->]. exact Hc.
    - intros Hc. apply frames_from_elem. right. eauto 6. }
  assert (Hsub : frames `sublist_of` index (Game.ball game))
    by apply frames_from_sublist.
  split_and!.
  - exact Hiff.
  - exact Hfrom.
  - intros f c rest Hball Hf.
    destruct (Hfrom f Hf) as (pre & p & c' & post & Hball' & _).
    rewrite Hball in Hball'.
    destruct (frame_split_unique ((f, c) :: rest) [] (pre ++ [p]) rest post f c c')
      as [Hpre _].
    + rewrite <- Hball. exact Hnd.
    + reflexivity.
    + rewrite <- app_assoc. exact Hball'.
    + destruct pre; discriminate.
  - intros pre p f c post Hball Hx Hy Hz Hf.
    apply (Hiff _ _ _ _ _ Hball) in Hf.
    destruct Hf as [Hc | [Hc | Hc]]; destruct Hc as (x & y & Hp & Hc & _);
      cbn [ang_vel av_x av_y av_z] in Hp, Hc.
    + destruct Hx as [Hx | Hx]; rewrite Hx in *; discriminate.
    + destruct Hy as [Hy | Hy]; rewrite Hy in *; discriminate.
    + destruct Hz as [Hz | Hz]; rewrite Hz in *; discriminate.
  - exact Hsub.
  - eapply StronglySorted_lt_sublist; eauto.
  - eapply sublist_NoDup; eauto.
Qed.

Ltac real_tests :=
  repeat match goal with
  | |- context [Rtruthy ?x] =>
    first [rewrite (Rtruthy_true x) by lra | rewrite (Rtruthy_false x) by lra]
  | |- context [Rltb ?x ?y] =>
    first [rewrite (Rltb_true x y) by lra | rewrite (Rltb_false x y) by lra]
  | |- context [Req_dec_T ?x ?y] =>
    let H := fresh in destruct (Req_dec_T x y) as [H|H]; [try (exfalso; lra) | try (exfalso; lra)]
  end.

Example spin_game_candidates :
  get_hit_frame_numbers_by_ball_ang_vel spin_game = [2%Z].
Proof.
  unfold get_hit_frame_numbers_by_ball_ang_vel, diff, spin_game.
  cbn [Game.ball].
  rewrite !frames_from_cons. cbn [fmap list_fmap filter list_filter any_axis1 diff_from].
  cbv [row_any diff_row ang_vel still_row spun_row lost_row
       ang_vel_x ang_vel_y ang_vel_z av_x av_y av_z fsub NaN cell_any].
  real_tests. reflexivity.
Qed.

Lemma candidate_frames_are_changes_witness :
  StronglySorted Z.lt (index (Game.ball spin_game)) /\
  StronglySorted Z.lt (get_hit_frame_numbers_by_ball_ang_vel spin_game).
Proof.
  assert (H : StronglySorted Z.lt (index (Game.ball spin_game))).
  { cbn. repeat constructor; lia. }
  split; [exact H|].
  apply (candidate_frames_are_changes spin_game H).
Defined.

(** ** Cleaning of a sample: what [joined.any()] decides *)

Lemma dropna_defined (s : Series) : Forall (fun e => exists x, e.2 = Some x) (dropna s).
Proof.
  unfold dropna. apply list.Forall_forall. intros [l v] Hin.
  apply list_elem_of_filter in Hin as [Hv _]. cbn in *.
  destruct v as [x|]; [eauto | discriminate].
Qed.

Lemma series_any_false (s : Series) :
  Forall (fun e => exists x, e.2 = Some x) s ->
  series_any s = false <-> Forall (fun e => e.2 = Some 0) s.
Proof.
  induction 1 as [|[l v] s [x Hx] Hs IH]; cbn in *.
  - split; [constructor | reflexivity].
  - subst v. rewrite orb_false_iff, IH, Forall_cons. cbn.
    assert (Rtruthy x = false <-> Some x = Some 0); [|tauto].
    split.
    + intros Hz. f_equal. destruct (Req_dec_T x 0) as [|Hne]; [assumption|].
      rewrite Rtruthy_true in Hz by assumption. discriminate.
    + intros [= ->]. apply Rtruthy_false. reflexivity.
Qed.

Lemma joined_values_dropped (rot : Rot3) (disp : Vec3) :
  joined_values rot disp = Ok None <->
  series_any (dropna (rotation_series rot ++ position_series disp)) = false.
Proof.
  unfold joined_values.
  destruct (series_any _); [|tauto].
  split; [|discriminate].
  destruct (series_loc3 _ "pos_x" _ _) as [[[dx dy] dz]|]; [|discriminate].
  destruct (series_loc3 _ "rot_x" _ _) as [[[rx ry] rz]|]; discriminate.
Qed.

Lemma joined_values_complete (rx ry rz dx dy dz : R) :
  ~ (rx = 0 /\ ry = 0 /\ rz = 0 /\ dx = 0 /\ dy = 0 /\ dz = 0) ->
  joined_values (mkRot3 (Some rx) (Some ry) (Some rz)) (vec dx dy dz) =
  Ok (Some (vec dx dy dz, mkRot3 (Some rx) (Some ry) (Some rz))).
Proof.
  intros Hnz. unfold joined_values.
  change (dropna (rotation_series (mkRot3 (Some rx) (Some ry) (Some rz)) ++
                  position_series (vec dx dy dz)))
    with [("rot_x"%string, Some rx); ("rot_y"%string, Some ry); ("rot_z"%string, Some rz);
          ("pos_x"%string, Some dx); ("pos_y"%string, Some dy); ("pos_z"%string, Some dz)].
  assert (Hany : series_any
            [("rot_x"%string, Some rx); ("rot_y"%string, Some ry); ("rot_z"%string, Some rz);
             ("pos_x"%string, Some dx); ("pos_y"%string, Some dy); ("pos_z"%string, Some dz)]
            = true).
  { destruct (series_any _) eqn:Hany; [reflexivity|]. exfalso. apply Hnz.
    cbn [series_any existsb cell_any snd] in Hany.
    repeat (apply orb_false_iff in Hany as [?%not_true_iff_false Hany]).
    rewrite Rtruthy_spec in *.
    split_and!;
      match goal with
      | |- ?x = 0 => destruct (Req_dec_T x 0) as [|Hn]; [assumption | exfalso; auto]
      end. }
  rewrite Hany. reflexivity.
Qed.

(** C3, as stated, fails: at frame 2 of [overlap_game] the rotation of the
    player and the displacement of the ball are all defined and all zero.
    Six values remain after the undefined ones are removed, and the pair is
    dropped all the same. *)
Lemma zero_sample_dropped_with_values_left :
  loc (Player.data lone_player) 2 = Ok level_row /\
  loc (Game.ball overlap_game) 2 = Ok centre_row /\
  length (dropna (rotation_series (row_rot level_row) ++
                  position_series (vsub (ball_pos centre_row) (row_pos level_row)))) = 6%nat /\
  (player_sample overlap_game 2 lone_player (mkLocals None (Some 999999) None)).1 = Ok None.
Proof.
  split_and!; [reflexivity.. |].
  unfold player_sample.
  change (loc (Player.data lone_player) 2) with (Ok level_row).
  change (loc (Game.ball overlap_game) 2) with (Ok centre_row).
  cbn [fst]. apply joined_values_dropped.
  cbv [series_any existsb dropna rotation_series position_series app filter list_filter
       level_row centre_row row_rot row_pos ball_pos vsub vec fsub pos_x pos_y pos_z
       rot_x rot_y rot_z cell_any snd isnan decide decide_rel].
  cbn. real_tests. reflexivity.
Qed.

(** ** The team loop *)

Lemma fltb_spec (a b : float) :
  fltb a b = true <-> exists x y, a = Some x /\ b = Some y /\ x < y.
Proof.
  destruct a as [x|], b as [y|]; cbn.
  - rewrite Rltb_spec. split; [eauto 6|]. intros (? & ? & [= <-] & [= <-] & ?). assumption.
  - split; [discriminate | intros (? & ? & _ & [=] & _)].
  - split; [discriminate | intros (? & ? & [=] & _)].
  - split; [discriminate | intros (? & ? & [=] & _)].
Qed.

Section ResolverFacts.
Context {Hitbox PlayerId : Type}.
Variable get_hitbox : Z -> Hitbox.
Variable unrotate_position : Vec3 -> Rot3 -> Vec3.
Variable get_distance : Vec3 -> Hitbox -> float.
Variable id_creation : string -> PlayerId.

Local Abbreviation step := (player_step get_hitbox unrotate_position get_distance).
Local Abbreviation loop := (team_loop get_hitbox unrotate_position get_distance).
Local Abbreviation dist := (evaluated_distance get_hitbox unrotate_position get_distance).

(** What one iteration does to the variables of the loop: the player is
    either passed over, the closest player and its distance unchanged, or
    it becomes the closest player, with a distance below the one so far.
    [ball_position] is left alone or set to the position of the ball at
    the frame. *)
Lemma player_step_spec (game : Game.t) (f : Z) (p : Player.t) (st st1 : Locals) :
  step game f p st = Ok st1 ->
  (ball_position st1 = ball_position st \/
   exists brow, loc (Game.ball game) f = Ok brow /\
                ball_position st1 = Some (ball_pos brow)) /\
  ((closest_player st1 = closest_player st /\
    closest_player_distance st1 = closest_player_distance st /\
    forall d, dist game f p = Some d -> fltb d (closest_player_distance st) = false) \/
   (closest_player st1 = Some p /\
    exists d, dist game f p = Some d /\
              fltb d (closest_player_distance st) = true /\
              closest_player_distance st1 = d /\
              exists brow, loc (Game.ball game) f = Ok brow /\
                           ball_position st1 = Some (ball_pos brow))).
Proof.
  unfold player_step, evaluated_distance, player_sample.
  destruct (player_car p) as [car_id|]; [|discriminate].
  destruct (loc (Player.data p) f) as [prow|]; cbn [fst].
  2: { intros [= <-]. split; [left; reflexivity|]. left. split_and!; [done..|discriminate]. }
  destruct (loc (Game.ball game) f) as [brow|]; cbn [fst].
  2: { intros [= <-]. split; [left; reflexivity|]. left. split_and!; [done..|discriminate]. }
  destruct (joined_values _ _) as [[[d r]|]|]; [| |discriminate].
  - cbn [closest_player_distance ball_position].
    destruct (fltb _ _) eqn:Hlt; intros [= <-]; cbn.
    + split; [right; eauto|]. right. split; [reflexivity|]. eauto 8.
    + split; [right; eauto|]. left. split_and!; [done..|].
      intros d' [= <-]. exact Hlt.
  - intros [= <-]. cbn. split; [right; eauto|]. left. split_and!; [done..|discriminate].
Qed.

(** The minimum the loop tracks.  From a distance [m0] so far, the loop
    ends with a distance [m] no larger than any distance it evaluated;
    either nothing was below [m0] and the closest player is the one so
    far, or the closest player is the first of the list that was
    evaluated with [m], every player before it being farther. *)
Lemma team_loop_spec (game : Game.t) (f : Z) (ps : list Player.t)
    (st0 st : Locals) (m0 : R) :
  loop game f ps st0 = Ok st ->
  closest_player_distance st0 = Some m0 ->
  exists m,
    closest_player_distance st = Some m /\
    (forall q y, q ∈ ps -> dist game f q = Some (Some y) -> m <= y) /\
    ((m = m0 /\ closest_player st = closest_player st0) \/
     (m < m0 /\
      exists l1 p l2,
        ps = l1 ++ p :: l2 /\ closest_player st = Some p /\
        dist game f p = Some (Some m) /\
        forall q y, q ∈ l1 -> dist game f q = Some (Some y) -> m < y)).
Proof.
  revert st0 m0. induction ps as [|p rest IH]; intros st0 m0 Hloop Hm0.
  - injection Hloop as <-. exists m0. split_and!; [assumption| |left; done].
    intros q y Hq. apply elem_of_nil in Hq as [].
  - cbn [team_loop] in Hloop.
    destruct (step game f p st0) as [st1|] eqn:Hstep; [|discriminate].
    apply player_step_spec in Hstep as [_ Hstep].
    destruct Hstep as [(Hcp & Hcd & Hfar) | (Hcp & d & Hd & Hlt & Hcd & _)].
    + (* the player is passed over *)
      assert (Hm1 : closest_player_distance st1 = Some m0) by congruence.
      destruct (IH st1 m0 Hloop Hm1) as (m & Hm & Hmin & Hcase).
      assert (Hp : forall y, dist game f p = Some (Some y) -> m0 <= y).
      { intros y Hy. specialize (Hfar _ Hy). rewrite Hm0 in Hfar.
        cbn in Hfar. destruct (Rlt_dec y m0) as [Hlt|Hge]; [|lra].
        rewrite Rltb_true in Hfar by assumption. discriminate. }
      exists m. split_and!; [assumption| |].
      * intros q y Hq Hy. apply elem_of_cons in Hq as [-> | Hq]; [|eauto].
        specialize (Hp _ Hy). destruct Hcase as [[-> _] | [Hlt _]]; lra.
      * destruct Hcase as [[-> Hsame] | (Hlt & l1 & p' & l2 & -> & Hp' & Hdp' & Hbefore)].
        -- left. split; [reflexivity | congruence].
        -- right. split; [assumption|]. exists (p :: l1), p', l2.
           split_and!; [reflexivity | assumption | assumption |].
           intros q y Hq Hy. apply elem_of_cons in Hq as [-> | Hq]; [|eauto].
           specialize (Hp _ Hy). lra.
    + (* the player becomes the closest one *)
      apply fltb_spec in Hlt as (y & m0' & -> & Hm0' & Hlt).
      rewrite Hm0 in Hm0'. injection Hm0' as <-.
      destruct (IH st1 y Hloop Hcd) as (m & Hm & Hmin & Hcase).
      exists m. split_and!; [assumption| |].
      * intros q y' Hq Hy. apply elem_of_cons in Hq as [-> | Hq]; [|eauto].
        rewrite Hd in Hy. injection Hy as <-.
        destruct Hcase as [[-> _] | [Hlt' _]]; lra.
      * right. destruct Hcase as [[-> Hsame] | (Hlt' & l1 & p' & l2 & -> & Hp' & Hdp' & Hbefore)].
        -- split; [assumption|]. exists [], p, rest.
           split_and!; [reflexivity | congruence | assumption |].
           intros q y' Hq. apply elem_of_nil in Hq as [].
        -- split; [lra|]. exists (p :: l1), p', l2.
           split_and!; [reflexivity | assumption | assumption |].
           intros q y' Hq Hy. apply elem_of_cons in Hq as [-> | Hq]; [|eauto].
           rewrite Hd in Hy. injection Hy as <-. assumption.
Qed.

Lemma accept_spec (st : Locals) :
  (forall m, closest_player_distance st = Some m -> m < 500 ->
             accept st = (closest_player st, Some m)) /\
  (forall m, closest_player_distance st = Some m -> ~ m < 500 ->
             accept st = (None, Some 999999)).
Proof.
  unfold accept, COLLISION_DISTANCE_HIGH_LIMIT.
  split; intros m -> Hm; cbn [fltb].
  - rewrite Rltb_true by assumption. reflexivity.
  - rewrite Rltb_false by assumption. reflexivity.
Qed.

(** C5. When the team loop of a candidate frame completes, a striker is
    accepted, and so a hit produced, exactly when the minimum of the
    distances the players of the team were evaluated with is strictly
    below 500, and the accepted distance is that minimum.  A closest
    distance of exactly 500 is rejected and one of 499 accepted; when no
    player was evaluated the distance is still the sentinel 999999 and
    nothing is accepted. *)
Theorem hit_exactly_below_threshold (game : Game.t) (f : Z) (ps : list Player.t)
    (bp : option Vec3) (st : Locals) :
  loop game f ps (mkLocals None (Some 999999) bp) = Ok st ->
  let is_minimum m :=
    (exists q, q ∈ ps /\ dist game f q = Some (Some m)) /\
    (forall q y, q ∈ ps -> dist game f q = Some (Some y) -> m <= y) in
  ((accept st).1 <> None <-> exists m, is_minimum m /\ m < 500) /\
  (forall p d, accept st = (Some p, d) ->
               exists m, d = Some m /\ is_minimum m /\ m < 500) /\
  ((forall q y, q ∈ ps -> dist game f q <> Some (Some y)) ->
   closest_player_distance st = Some 999999 /\ accept st = (None, Some 999999)) /\
  (forall p bp', accept (mkLocals (Some p) (Some 500) bp') = (None, Some 999999)) /\
  (forall p bp', accept (mkLocals (Some p) (Some 499) bp') = (Some p, Some 499)).
Proof.
  intros Hloop is_minimum.
  destruct (team_loop_spec _ _ _ _ _ 999999 Hloop eq_refl)
    as (m & Hm & Hmin & Hcase).
  destruct (accept_spec st) as [Hyes Hno].
  assert (Hacc : forall p d, accept st = (Some p, d) ->
                   exists m, d = Some m /\ is_minimum m /\ m < 500).
  { intros p d Hp. destruct (Rlt_dec m 500) as [Hlt|Hge].
    - rewrite (Hyes m Hm Hlt) in Hp. injection Hp as Hp <-.
      exists m. split; [reflexivity|]. split; [|assumption].
      destruct Hcase as [[-> _] | (_ & l1 & p' & l2 & -> & _ & Hd & _)]; [lra|].
      split; [|assumption]. exists p'. split; [|assumption].
      apply elem_of_app. right. left.
    - rewrite (Hno m Hm Hge) in Hp. discriminate. }
  split_and!.
  - split.
    + intros Hsome. destruct (accept st) as [[p|] d] eqn:Hp; [|contradiction].
      destruct (Hacc p d eq_refl) as (m' & _ & ? & ?). eauto.
    + intros (m' & [(q & Hq & Hdq) Hmin'] & Hlt).
      assert (Hle : m <= m') by eauto.
      rewrite (Hyes m Hm) by lra. cbn [fst].
      destruct Hcase as [[-> _] | (_ & l1 & p' & l2 & _ & -> & _)]; [lra | discriminate].
  - exact Hacc.
  - intros Hnone. destruct Hcase as [[-> _] | (_ & l1 & p' & l2 & -> & _ & Hd & _)].
    + split; [assumption|]. apply (Hno _ Hm). lra.
    + exfalso. apply (Hnone p' m); [|assumption]. apply elem_of_app. right. left.
  - intros p bp'.
    apply (proj2 (accept_spec (mkLocals (Some p) (Some 500) bp')) 500); [reflexivity | lra].
  - intros p bp'.
    apply (proj1 (accept_spec (mkLocals (Some p) (Some 499) bp')) 499); [reflexivity | lra].
Qed.

(** C8. When the team loop of a candidate frame completes and accepts a
    striker, the striker is the first player, in the order of the team's
    list, that was evaluated with the accepted distance: every player
    before it was evaluated with a strictly larger distance or not at all,
    and no player after it with a smaller one.  Of several teammates at the
    minimum, the first of the list is the striker. *)
Theorem first_of_tied_teammates_is_striker (game : Game.t) (f : Z)
    (ps : list Player.t) (bp : option Vec3) (st : Locals) (p : Player.t) (d : float) :
  loop game f ps (mkLocals None (Some 999999) bp) = Ok st ->
  accept st = (Some p, d) ->
  exists m l1 l2,
    d = Some m /\ ps = l1 ++ p :: l2 /\
    dist game f p = Some (Some m) /\
    (forall q y, q ∈ l1 -> dist game f q = Some (Some y) -> m < y) /\
    (forall q y, q ∈ l2 -> dist game f q = Some (Some y) -> m <= y).
Proof.
  intros Hloop Hp.
  destruct (team_loop_spec _ _ _ _ _ 999999 Hloop eq_refl)
    as (m & Hm & Hmin & Hcase).
  destruct (accept_spec st) as [Hyes Hno].
  destruct (Rlt_dec m 500) as [Hlt|Hge].
  2: { rewrite (Hno m Hm Hge) in Hp. discriminate. }
  rewrite (Hyes m Hm Hlt) in Hp. injection Hp as Hp <-.
  destruct Hcase as [[-> _] | (_ & l1 & p' & l2 & -> & Hp' & Hd & Hbefore)]; [lra|].
  rewrite Hp' in Hp. injection Hp as <-.
  exists m, l1, l2. split_and!; [reflexivity.. | assumption | assumption |].
  intros q y Hq. apply Hmin. apply elem_of_app. right. right. assumption.
Qed.

(** C3, amended.  For a player whose row and the ball's row exist at the
    frame, the pair is dropped by [joined.any()] exactly when no value
    left after the undefined components are removed is different from
    zero, which includes the case that none is left.  When the three
    rotation components and the three displacement components are all
    defined and not all zero, the player is evaluated: the distance of the
    unrotated displacement to its hitbox is compared with the closest
    distance so far. *)
Theorem sample_dropped_iff_no_nonzero_value (game : Game.t) (f : Z)
    (player : Player.t) (st : Locals) (prow : Row) (brow : BallRow) :
  loc (Player.data player) f = Ok prow ->
  loc (Game.ball game) f = Ok brow ->
  let rot := row_rot prow in
  let disp := vsub (ball_pos brow) (row_pos prow) in
  let joined := dropna (rotation_series rot ++ position_series disp) in
  ((player_sample game f player st).1 = Ok None <->
   Forall (fun e => e.2 = Some 0) joined) /\
  (joined = [] -> (player_sample game f player st).1 = Ok None) /\
  (forall rx ry rz dx dy dz car_id,
      rot = mkRot3 (Some rx) (Some ry) (Some rz) ->
      disp = vec dx dy dz ->
      ~ (rx = 0 /\ ry = 0 /\ rz = 0 /\ dx = 0 /\ dy = 0 /\ dz = 0) ->
      player_car player = Ok car_id ->
      (player_sample game f player st).1 = Ok (Some (disp, rot)) /\
      step game f player st =
      Ok (let d := get_distance (unrotate_position disp rot) (get_hitbox car_id) in
          if fltb d (closest_player_distance st)
          then mkLocals (Some player) d (Some (ball_pos brow))
          else mkLocals (closest_player st) (closest_player_distance st)
                        (Some (ball_pos brow)))).
Proof.
  intros Hp Hb rot disp joined.
  assert (Hiff : (player_sample game f player st).1 = Ok None <->
                 Forall (fun e => e.2 = Some 0) joined).
  { unfold player_sample. rewrite Hp, Hb. cbn [fst].
    rewrite joined_values_dropped. apply series_any_false, dropna_defined. }
  split_and!.
  - exact Hiff.
  - intros Hnil. apply Hiff. rewrite Hnil. constructor.
  - intros rx ry rz dx dy dz car_id Hrot Hdisp Hnz Hcar.
    assert (Hsample : player_sample game f player st =
              (Ok (Some (disp, rot)),
               mkLocals (closest_player st) (closest_player_distance st)
                        (Some (ball_pos brow)))).
    { unfold player_sample. rewrite Hp, Hb. fold rot. fold disp.
      rewrite Hrot, Hdisp, joined_values_complete by assumption. reflexivity. }
    split; [rewrite Hsample; reflexivity|].
    unfold player_step. rewrite Hcar, Hsample. cbn [closest_player_distance ball_position closest_player].
    destruct (fltb _ _); reflexivity.
Qed.

(** ** The frame loop *)

Local Abbreviation fstep :=
  (frame_step get_hitbox unrotate_position get_distance id_creation).
Local Abbreviation floop :=
  (frames_loop get_hitbox unrotate_position get_distance id_creation).
Local Abbreviation striker := (resolve get_hitbox unrotate_position get_distance).
Local Abbreviation is_accepted := (accepted get_hitbox unrotate_position get_distance).

Lemma team_loop_ball_position (game : Game.t) (f : Z) (ps : list Player.t)
    (st0 st : Locals) :
  loop game f ps st0 = Ok st ->
  ball_position_current game f st0 -> ball_position_current game f st.
Proof.
  revert st0. induction ps as [|p rest IH]; intros st0 Hloop Hinv.
  - injection Hloop as <-. exact Hinv.
  - cbn [team_loop] in Hloop.
    destruct (step game f p st0) as [st1|] eqn:Hstep; [|discriminate].
    apply (IH st1 Hloop). intros Hsome.
    apply player_step_spec in Hstep as [Hbp Hstep].
    destruct Hstep as [(Hcp & _) | (_ & d & _ & _ & _ & Hbrow)]; [|exact Hbrow].
    destruct Hbp as [Hbp | Hbp]; [|exact Hbp].
    rewrite Hcp in Hsome. rewrite Hbp. exact (Hinv Hsome).
Qed.

(** The closest player and its distance do not depend on what
    [ball_position] held when the loop was entered. *)
Lemma player_step_forget (game : Game.t) (f : Z) (p : Player.t)
    (cp : option Player.t) (cd : float) (bp bp' : option Vec3) :
  match step game f p (mkLocals cp cd bp), step game f p (mkLocals cp cd bp') with
  | Ok a, Ok b => closest_player a = closest_player b /\
                  closest_player_distance a = closest_player_distance b
  | Raise e, Raise e' => e = e'
  | _, _ => False
  end.
Proof.
  unfold player_step, player_sample.
  destruct (player_car p); [|reflexivity].
  destruct (loc (Player.data p) f); [|done].
  destruct (loc (Game.ball game) f); [|done].
  destruct (joined_values _ _) as [[[d r]|]|]; [| done | reflexivity].
  cbn [closest_player_distance]. destruct (fltb _ _); done.
Qed.

Lemma team_loop_forget (game : Game.t) (f : Z) (ps : list Player.t)
    (cp : option Player.t) (cd : float) (bp bp' : option Vec3) :
  match loop game f ps (mkLocals cp cd bp), loop game f ps (mkLocals cp cd bp') with
  | Ok a, Ok b => closest_player a = closest_player b /\
                  closest_player_distance a = closest_player_distance b
  | Raise e, Raise e' => e = e'
  | _, _ => False
  end.
Proof.
  revert cp cd bp bp'. induction ps as [|p rest IH]; intros cp cd bp bp'.
  - cbn. done.
  - cbn [team_loop]. pose proof (player_step_forget game f p cp cd bp bp') as Hstep.
    destruct (step game f p (mkLocals cp cd bp)) as [[cp1 cd1 bp1]|],
             (step game f p (mkLocals cp cd bp')) as [[cp2 cd2 bp2]|];
      try contradiction; [|exact Hstep].
    cbn in Hstep. destruct Hstep as [-> ->]. apply IH.
Qed.

Lemma accept_forget (a b : Locals) :
  closest_player a = closest_player b ->
  closest_player_distance a = closest_player_distance b ->
  accept a = accept b.
Proof. unfold accept. intros -> ->. reflexivity. Qed.

Lemma accept_some (st : Locals) (p : Player.t) (d : float) :
  accept st = (Some p, d) -> closest_player st = Some p.
Proof.
  unfold accept. destruct (fltb _ _); [|discriminate]. intros [= -> _]. reflexivity.
Qed.

Lemma alter_last {A : Type} (g : A -> A) (l : list A) (x : A) :
  alter g (length l) (l ++ [x]) = l ++ [g x].
Proof. induction l as [|y l IH]; cbn; [reflexivity | f_equal; exact IH]. Qed.

(** The message a completed [build_hit] leaves at the end of
    [proto_game.game_stats.hits], and the reference it stores. *)
Lemma build_hit_ok (df : Frame (option Z)) (f : Z) (p : Player.t) (d : float)
    (position : Vec3) (g : option Z) (st : State PlayerId) :
  loc df f = Ok g ->
  build_hit id_creation df f p d (Some position) st =
  (Ok tt,
   mkState (hits st ++ [mkHit f g (Some (id_creation (Player.name p))) d position])
           (<[f := length (hits st)]> (all_hits st)) (Some position)).
Proof.
  intros Hg. unfold build_hit. rewrite Hg.
  destruct g as [g|], position as [x y z]; rewrite !alter_last; reflexivity.
Qed.

Lemma build_hit_completes (df : Frame (option Z)) (f : Z) (p : Player.t) (d : float)
    (bp : option Vec3) (st st' : State PlayerId) :
  build_hit id_creation df f p d bp st = (Ok tt, st') ->
  exists g position, loc df f = Ok g /\ bp = Some position.
Proof.
  unfold build_hit. destruct (loc df f) as [g|]; [|discriminate].
  destruct bp as [position|]; [eauto | discriminate].
Qed.

(** A completed iteration of the frame loop either leaves the hits as
    they are, no striker being accepted at the frame, or adds the hit of
    the accepted striker and stores its reference under the frame. *)
Lemma frame_step_ok (game : Game.t) (df : Frame (option Z)) (f : Z)
    (st st' : State PlayerId) :
  fstep game (make_team_dict (Game.teams game)) df f st = (Ok tt, st') ->
  (striker game f = Ok None /\ hits st' = hits st /\ all_hits st' = all_hits st) \/
  (exists p d brow g,
      striker game f = Ok (Some (p, d)) /\
      loc (Game.ball game) f = Ok brow /\ loc df f = Ok g /\
      hits st' =
        hits st ++ [mkHit f g (Some (id_creation (Player.name p))) d (ball_pos brow)] /\
      all_hits st' = <[f := length (hits st)]> (all_hits st)).
Proof.
  unfold frame_step, resolve.
  destruct (responsible_team _ _ _) as [team|].
  2: { intros [= <-]. left. done. }
  pose proof (team_loop_forget game f (Team.players team) None (Some 999999)
                (ball_position_var st) None) as Hforget.
  destruct (loop game f (Team.players team) (mkLocals None (Some 999999) (ball_position_var st)))
    as [locals|] eqn:Hloop; [|discriminate].
  destruct (loop game f (Team.players team) (mkLocals None (Some 999999) None))
    as [locals'|]; [|contradiction].
  destruct Hforget as [Hcp Hcd].
  rewrite <- (accept_forget locals locals' Hcp Hcd).
  destruct (accept locals) as [[p|] d] eqn:Hacc.
  2: { intros [= <-]. left. done. }
  intros Hbuild. right.
  destruct (build_hit_completes _ _ _ _ _ _ _ Hbuild) as (g & position & Hg & Hbp).
  assert (Hcur : ball_position_current game f locals).
  { apply (team_loop_ball_position _ _ _ _ _ Hloop). intros Hsome. contradiction. }
  destruct Hcur as (brow & Hbrow & Hpos).
  { rewrite (accept_some _ _ _ Hacc). discriminate. }
  rewrite Hbp in Hpos. injection Hpos as ->.
  rewrite Hbp, (build_hit_ok _ _ _ _ _ _ _ Hg) in Hbuild. injection Hbuild as <-.
  exists p, d, brow, g. done.
Qed.

(** Every reference of [all_hits] leads to the hit of the striker
    accepted at its frame. *)
Local Abbreviation hits_are_strikers game df st :=
  (forall f ref, all_hits st !! f = Some ref ->
     exists p d brow g,
       striker game f = Ok (Some (p, d)) /\
       loc (Game.ball game) f = Ok brow /\ loc df f = Ok g /\
       hits st !! ref =
         Some (mkHit f g (Some (id_creation (Player.name p))) d (ball_pos brow))).

Lemma frames_loop_hits (game : Game.t) (df : Frame (option Z)) (fs : list Z)
    (st st' : State PlayerId) :
  floop game (make_team_dict (Game.teams game)) df fs st = (Ok tt, st') ->
  hits_are_strikers game df st -> hits_are_strikers game df st'.
Proof.
  revert st. induction fs as [|f0 rest IH]; intros st Hloop Hinv.
  - injection Hloop as <-. exact Hinv.
  - cbn [frames_loop] in Hloop.
    destruct (fstep game _ df f0 st) as [[[]|e] st1] eqn:Hstep; [|discriminate].
    apply (IH st1 Hloop). clear IH Hloop.
    apply frame_step_ok in Hstep
      as [(_ & Hhits & Hall) | (p & d & brow & g & Hs & Hb & Hg & Hhits & Hall)].
    + intros f ref. rewrite Hhits, Hall. apply Hinv.
    + intros f ref. rewrite Hhits, Hall.
      destruct (decide (f0 = f)) as [<-|Hne].
      * rewrite lookup_insert_eq. intros [= <-].
        exists p, d, brow, g. split_and!; [assumption..|].
        apply list_lookup_middle. reflexivity.
      * rewrite lookup_insert_ne by assumption. intros Href.
        destruct (Hinv f ref Href) as (p' & d' & brow' & g' & ? & ? & ? & Hh).
        exists p', d', brow', g'. split_and!; [assumption..|].
        apply lookup_app_l_Some. exact Hh.
Qed.

(** C7. When the detection pass returns, every entry of the mapping, for a
    frame f, refers to a hit whose [frame_number] is f, whose
    [goal_number] is the goal number of the frame, absent when that one is
    undefined, whose [collision_distance] is the distance of the striker
    accepted at f, and whose ball position is the position of the ball at
    frame f. *)
Theorem hit_event_fields (game : Game.t) (proto_hits : list (Hit PlayerId))
    (df : Frame (option Z)) (mapping : gmap Z nat) (store : list (Hit PlayerId)) :
  get_hits_from_game get_hitbox unrotate_position get_distance id_creation
                     game proto_hits df = (Ok mapping, store) ->
  forall f ref, mapping !! f = Some ref ->
    exists p d brow g h,
      striker game f = Ok (Some (p, d)) /\
      loc (Game.ball game) f = Ok brow /\
      loc df f = Ok g /\
      store !! ref = Some h /\
      frame_number h = f /\
      goal_number h = g /\
      player_id h = Some (id_creation (Player.name p)) /\
      collision_distance h = d /\
      ball_data h = ball_pos brow.
Proof.
  unfold get_hits_from_game.
  destruct (floop game _ df _ _) as [[[]|e] st'] eqn:Hloop; [|discriminate].
  intros [= <- <-] f ref Href.
  pose proof (frames_loop_hits _ _ _ _ _ Hloop) as Hinv.
  destruct (Hinv ltac:(intros f' ref'; cbn [all_hits]; rewrite lookup_empty; discriminate)
                 f ref Href)
    as (p & d & brow & g & ? & ? & ? & Hh).
  exists p, d, brow, g, (mkHit f g (Some (id_creation (Player.name p))) d (ball_pos brow)).
  split_and!; done.
Qed.

Lemma frames_loop_appends (game : Game.t) (df : Frame (option Z)) (fs : list Z)
    (st st' : State PlayerId) :
  floop game (make_team_dict (Game.teams game)) df fs st = (Ok tt, st') ->
  NoDup fs ->
  exists new,
    hits st' = hits st ++ new /\
    frame_number <$> new = filter (fun f => is_accepted game f = true) fs /\
    forall f ref,
      all_hits st' !! f = Some ref <->
      (exists k h, new !! k = Some h /\ frame_number h = f /\
                   ref = (length (hits st) + k)%nat) \/
      ((f ∉ frame_number <$> new) /\ all_hits st !! f = Some ref).
Proof.
  revert st. induction fs as [|f0 rest IH]; intros st Hloop Hnd.
  - injection Hloop as <-. exists []. split_and!.
    + rewrite app_nil_r. reflexivity.
    + reflexivity.
    + intros f ref. split.
      * intros H. right. split; [apply not_elem_of_nil | exact H].
      * intros [(k & h & Hk & _) | [_ H]]; [|exact H].
        rewrite lookup_nil in Hk. discriminate.
  - cbn [frames_loop] in Hloop.
    destruct (fstep game _ df f0 st) as [[[]|e] st1] eqn:Hstep; [|discriminate].
    apply NoDup_cons in Hnd as [Hf0 Hnd].
    destruct (IH st1 Hloop Hnd) as (new & Hhits' & Hframes & Hmap). clear IH Hloop.
    apply frame_step_ok in Hstep
      as [(Hs & Hhits & Hall) | (p & d & brow & g & Hs & Hb & Hg & Hhits & Hall)].
    + exists new. rewrite <- Hhits, <- Hall. split_and!; [assumption | | assumption].
      rewrite filter_cons_False; [assumption|].
      unfold accepted. rewrite Hs. discriminate.
    + set (h0 := mkHit f0 g (Some (id_creation (Player.name p))) d (ball_pos brow)) in *.
      assert (Hfresh : f0 ∉ (frame_number <$> new)).
      { rewrite Hframes. intros Hin. apply list_elem_of_filter in Hin as [_ Hin].
        contradiction. }
      exists (h0 :: new). split_and!.
      * rewrite Hhits', Hhits, <- app_assoc. reflexivity.
      * rewrite filter_cons_True; [cbn; f_equal; assumption|].
        unfold accepted. rewrite Hs. reflexivity.
      * intros f ref. rewrite Hmap, Hhits, Hall, length_app. cbn [length].
        split.
        -- intros [(k & h & Hk & Hf & ->) | [Hnew Href]].
           ++ left. exists (S k), h. split_and!; [assumption.. | lia].
           ++ destruct (decide (f0 = f)) as [<-|Hne].
              ** rewrite lookup_insert_eq in Href. injection Href as <-.
                 left. exists 0%nat, h0. split_and!; [reflexivity.. | lia].
              ** rewrite lookup_insert_ne in Href by assumption.
                 right. split; [|assumption]. cbn.
                 intros Hin. apply elem_of_cons in Hin as [-> | Hin]; contradiction.
        -- intros [(k & h & Hk & Hf & ->) | [Hnew Href]].
           ++ destruct k as [|k]; cbn in Hk.
              ** injection Hk as <-. cbn in Hf. subst f. right.
                 split; [assumption|]. rewrite lookup_insert_eq. f_equal. lia.
              ** left. exists k, h. split_and!; [assumption.. | lia].
           ++ right. cbn in Hnew. apply not_elem_of_cons in Hnew as [Hne Hnew].
              split; [assumption|]. rewrite lookup_insert_ne by congruence. assumption.
Qed.

(** C10. On a ball frame indexed by increasing frame numbers, when the
    detection pass returns, [proto_game.game_stats.hits] is what it was
    with new hits appended; the new hits are those of the candidate frames
    at which a striker is accepted, one each and no other, in increasing
    frame order; and the mapping sends the frame number of every new hit,
    and nothing else, to that very message of
    [proto_game.game_stats.hits]. *)
Theorem hits_appended_in_frame_order (game : Game.t)
    (proto_hits : list (Hit PlayerId)) (df : Frame (option Z))
    (mapping : gmap Z nat) (store : list (Hit PlayerId)) :
  StronglySorted Z.lt (index (Game.ball game)) ->
  get_hits_from_game get_hitbox unrotate_position get_distance id_creation
                     game proto_hits df = (Ok mapping, store) ->
  exists new,
    store = proto_hits ++ new /\
    frame_number <$> new =
      filter (fun f => is_accepted game f = true)
             (get_hit_frame_numbers_by_ball_ang_vel game) /\
    StronglySorted Z.lt (frame_number <$> new) /\
    forall f ref,
      mapping !! f = Some ref <->
      exists k h, new !! k = Some h /\ frame_number h = f /\
                  ref = (length proto_hits + k)%nat.
Proof.
  intros Hsorted. unfold get_hits_from_game.
  destruct (floop game _ df _ _) as [[[]|e] st'] eqn:Hloop; [|discriminate].
  intros [= <- <-].
  assert (Hcand : StronglySorted Z.lt (get_hit_frame_numbers_by_ball_ang_vel game)).
  { eapply StronglySorted_lt_sublist; [|exact Hsorted]. apply frames_from_sublist. }
  apply frames_loop_appends in Hloop as (new & Hhits & Hframes & Hmap);
    [|apply StronglySorted_lt_NoDup, Hcand].
  exists new. cbn [hits all_hits] in *. split_and!; [assumption.. | |].
  - rewrite Hframes. eapply StronglySorted_lt_sublist; [|exact Hcand].
    apply sublist_filter.
  - intros f ref. rewrite Hmap. split; [|auto].
    intros [H | [_ H]]; [exact H|]. rewrite lookup_empty in H. discriminate.
Qed.

(** What the [except KeyError] clauses do cover: a frame whose team flag
    leads to no team is passed over, and so is a player with no row at the
    frame, the players after it still being considered. *)
Lemma unknown_team_skips_frame (game : Game.t) (team_dict : gmap bool Team.t)
    (df : Frame (option Z)) (f : Z) (st : State PlayerId) :
  responsible_team game team_dict f = None ->
  fstep game team_dict df f st = (Ok tt, st).
Proof. intros Hnone. unfold frame_step. rewrite Hnone. reflexivity. Qed.

Lemma absent_row_skips_player (game : Game.t) (f : Z) (p : Player.t)
    (rest : list Player.t) (st : Locals) (car_id : Z) :
  player_car p = Ok car_id ->
  loc (Player.data p) f = Raise KeyError ->
  loop game f (p :: rest) st = loop game f rest st.
Proof.
  intros Hcar Hrow. cbn [team_loop]. unfold player_step, player_sample.
  rewrite Hcar, Hrow. reflexivity.
Qed.

End ResolverFacts.

(** ** Sample runs *)

Lemma three_frame_candidates (game : Game.t) :
  Game.ball game = [(0%Z, still_row); (1%Z, still_row); (2%Z, spun_row)] ->
  get_hit_frame_numbers_by_ball_ang_vel game = [2%Z].
Proof.
  intros Hball. unfold get_hit_frame_numbers_by_ball_ang_vel, diff. rewrite Hball.
  rewrite !frames_from_cons. cbn [fmap list_fmap filter list_filter any_axis1 diff_from].
  cbv [row_any diff_row ang_vel still_row spun_row
       ang_vel_x ang_vel_y ang_vel_z av_x av_y av_z fsub NaN cell_any].
  real_tests. reflexivity.
Qed.

Lemma three_frame_team (game : Game.t) (team : Team.t) :
  Game.ball game = [(0%Z, still_row); (1%Z, still_row); (2%Z, spun_row)] ->
  Game.teams game = [team] -> Team.is_orange team = false ->
  responsible_team game (make_team_dict (Game.teams game)) 2 = Some team.
Proof.
  intros Hball Hteams Horange. unfold responsible_team, make_team_dict.
  rewrite Hball, Hteams.
  change (loc _ 2) with (Ok spun_row).
  cbn [fold_left]. rewrite Horange.
  cbv [dict_key hit_team_no spun_row]. real_tests.
  apply lookup_insert_eq.
Qed.

Lemma level_sample (game : Game.t) (player : Player.t) (st : Locals) :
  loc (Player.data player) 2 = Ok level_row ->
  loc (Game.ball game) 2 = Ok spun_row ->
  player_sample game 2 player st =
  (Ok (Some (vec (0 - 0) (0 - 0) (100 - 0), mkRot3 (Some 0) (Some 0) (Some 0))),
   mkLocals (closest_player st) (closest_player_distance st) (Some (vec 0 0 100))).
Proof.
  intros Hp Hb. unfold player_sample. rewrite Hp, Hb. f_equal.
  apply (joined_values_complete 0 0 0 (0 - 0) (0 - 0) (100 - 0)). lra.
Qed.

Lemma lost_rotation_sample (game : Game.t) (player : Player.t) (st : Locals) :
  loc (Player.data player) 2 = Ok lost_rotation_row ->
  loc (Game.ball game) 2 = Ok spun_row ->
  (player_sample game 2 player st).1 = Raise KeyError.
Proof.
  intros Hp Hb. unfold player_sample. rewrite Hp, Hb. cbn [fst].
  unfold joined_values.
  change (dropna _)
    with [("pos_x"%string, Some (0 - 0)); ("pos_y"%string, Some (0 - 0));
          ("pos_z"%string, Some (100 - 0))].
  cbn [series_any existsb cell_any snd]. real_tests. reflexivity.
Qed.

Lemma level_matrix :
  rotation_matrix (Some 0) (Some 0) (Some 0) =
  mkMat3 (Some 1) (Some 0) (Some 0)
         (Some 0) (Some 1) (Some 0)
         (Some 0) (Some 0) (Some 1).
Proof.
  cbv [rotation_matrix get_rotation_matrix_from_row fcos fsin fadd fsub fmul fneg].
  rewrite cos_0, sin_0. f_equal; f_equal; lra.
Qed.

(** On complete positions the displacement the resolver takes, ball minus
    player, is the opposite of the one the batch pipeline takes, player
    minus ball. *)
Lemma displacements_opposite (px py pz bx byy bz : R) :
  vsub (vec bx byy bz) (vec px py pz) =
  vec (- (px - bx)) (- (py - byy)) (- (pz - bz)) /\
  vsub (vec px py pz) (vec bx byy bz) = vec (px - bx) (py - byy) (pz - bz).
Proof.
  cbv [vsub vec fsub pos_x pos_y pos_z]. split; f_equal; f_equal; lra.
Qed.

(** C2. At frame 2 of [lone_game] the player is level at the origin and the
    ball 100 units above it.  The batch pipeline takes the world
    displacement (0, 0, -100), player minus ball, and its local displacement
    is (0, 0, -100); the resolver hands [unrotate_position] the displacement
    (0, 0, 100), ball minus player.  The two paths do not start from the same
    world displacement; with the height of the ball over a roof at 90 as the
    collision distance of both, the batch path gets -190 and the resolver
    10. *)
Theorem resolver_and_batch_displacements_differ :
  exists displacement rotation_matrices sample,
    get_player_ball_displacements lone_hit_frames "p" = Ok displacement /\
    displacement = [(2%Z, vec 0 0 (-100))] /\
    get_rotation_matrices lone_hit_frames "p" = Ok rotation_matrices /\
    get_local_displacement displacement rotation_matrices = Ok [(2%Z, vec 0 0 (-100))] /\
    (player_sample lone_game 2 lone_player (mkLocals None (Some 999999) None)).1 =
      Ok (Some sample) /\
    sample = (vec 0 0 100, mkRot3 (Some 0) (Some 0) (Some 0)) /\
    vec 0 0 (-100) <> vec 0 0 100 /\
    get_collision_distances (fun hitbox d => sample_distance d hitbox)
                            [(2%Z, vec 0 0 (-100))] tt = [(2%Z, Some (-190))] /\
    sample_distance (sample_unrotate sample.1 sample.2) tt = Some 10.
Proof.
  exists [(2%Z, vec 0 0 (-100))], [(2%Z, rotation_matrix (Some 0) (Some 0) (Some 0))],
         (vec 0 0 100, mkRot3 (Some 0) (Some 0) (Some 0)).
  assert (Hp : hf_entity lone_hit_frames !! "p"%string = Some [level_row])
    by (unfold lone_hit_frames; cbn [hf_entity]; apply lookup_insert_eq).
  assert (Hb : hf_entity lone_hit_frames !! "ball"%string =
               Some [mkRow (vec 0 0 100) (mkRot3 (Some 0) (Some 0) (Some 0))]).
  { unfold lone_hit_frames; cbn [hf_entity].
    rewrite lookup_insert_ne by discriminate. apply lookup_insert_eq. }
  split_and!.
  - unfold get_player_ball_displacements. rewrite Hp, Hb.
    cbn [fmap list_fmap zip_with row_pos level_row mkFrame zip hf_index lone_hit_frames].
    do 3 f_equal. cbv [vsub vec pos_x pos_y pos_z fsub]. f_equal; f_equal; lra.
  - reflexivity.
  - unfold get_rotation_matrices. rewrite Hp. reflexivity.
  - rewrite get_local_displacement_rows by (reflexivity || discriminate).
    cbn [index values fmap list_fmap zip_with mkFrame zip fst snd].
    rewrite level_matrix.
    do 3 f_equal.
    cbv [matmul vec fadd fmul m00 m01 m02 m10 m11 m12 m20 m21 m22 pos_x pos_y pos_z].
    f_equal; f_equal; lra.
  - rewrite (level_sample lone_game lone_player _ eq_refl eq_refl). cbn [fst].
    do 3 f_equal. cbv [vec]. f_equal; f_equal; lra.
  - reflexivity.
  - intros H. injection H as H. lra.
  - cbv [get_collision_distances sample_distance fmap list_fmap fst snd vec pos_z fsub].
    do 3 f_equal. lra.
  - cbv [sample_distance sample_unrotate fst vec pos_z fsub]. f_equal. lra.
Qed.

(** C4. At frame 2 of [tumbling_game] the rotation of the only player of
    the responsible team is undefined and its position is not.  The
    displacement survives the cleaning, the rotation does not, and reading
    the rotation back raises [KeyError] outside the [try] block: the
    detection pass raises instead of skipping the player, whatever the
    helpers are, and [proto_game.game_stats.hits] is left as it was. *)
Theorem missing_rotation_aborts_detection
    (Hitbox PlayerId : Type) (get_hitbox : Z -> Hitbox)
    (unrotate_position : Vec3 -> Rot3 -> Vec3) (get_distance : Vec3 -> Hitbox -> float)
    (id_creation : string -> PlayerId)
    (proto_hits : list (Hit PlayerId)) (data_frame : Frame (option Z)) :
  get_hits_from_game get_hitbox unrotate_position get_distance id_creation
                     tumbling_game proto_hits data_frame =
  (Raise KeyError, proto_hits).
Proof.
  unfold get_hits_from_game.
  rewrite (three_frame_candidates tumbling_game eq_refl).
  cbn [frames_loop]. unfold frame_step.
  rewrite (three_frame_team tumbling_game tumbling_team eq_refl eq_refl eq_refl).
  cbn [Team.players tumbling_team team_loop]. unfold player_step.
  change (player_car tumbling_player) with (@Ok Z 23%Z). cbn match.
  pose proof (lost_rotation_sample tumbling_game tumbling_player
                (mkLocals None (Some 999999) None) eq_refl eq_refl) as Hs.
  cbn [ball_position_var].
  destruct (player_sample tumbling_game 2 tumbling_player _) as [o st1].
  cbn [fst] in Hs. rewrite Hs. reflexivity.
Qed.

Lemma level_player_step (game : Game.t) (player : Player.t) (st : Locals) :
  player_car player = Ok 23%Z ->
  loc (Player.data player) 2 = Ok level_row ->
  loc (Game.ball game) 2 = Ok spun_row ->
  player_step sample_hitbox sample_unrotate sample_distance game 2 player st =
  Ok (if fltb (Some (100 - 0 - 90)) (closest_player_distance st)
      then mkLocals (Some player) (Some (100 - 0 - 90)) (Some (vec 0 0 100))
      else mkLocals (closest_player st) (closest_player_distance st)
                    (Some (vec 0 0 100))).
Proof.
  intros Hcar Hp Hb. unfold player_step.
  rewrite Hcar, (level_sample game player st Hp Hb).
  cbn [closest_player_distance ball_position closest_player].
  change (sample_distance (sample_unrotate _ _) _) with (Some (100 - 0 - 90)).
  destruct (fltb _ _); reflexivity.
Qed.

Lemma lone_team_loop (bp : option Vec3) :
  team_loop sample_hitbox sample_unrotate sample_distance lone_game 2
            (Team.players lone_team) (mkLocals None (Some 999999) bp) =
  Ok (mkLocals (Some lone_player) (Some (100 - 0 - 90)) (Some (vec 0 0 100))).
Proof.
  cbn [Team.players lone_team team_loop].
  rewrite (level_player_step lone_game lone_player _ eq_refl eq_refl eq_refl).
  cbn [closest_player_distance fltb]. real_tests. reflexivity.
Qed.

Lemma duo_team_loop (bp : option Vec3) :
  team_loop sample_hitbox sample_unrotate sample_distance duo_game 2
            (Team.players duo_team) (mkLocals None (Some 999999) bp) =
  Ok (mkLocals (Some lone_player) (Some (100 - 0 - 90)) (Some (vec 0 0 100))).
Proof.
  cbn [Team.players duo_team team_loop].
  rewrite (level_player_step duo_game lone_player _ eq_refl eq_refl eq_refl).
  cbn [closest_player_distance fltb]. real_tests.
  rewrite (level_player_step duo_game second_player _ eq_refl eq_refl eq_refl).
  cbn [closest_player_distance fltb closest_player]. real_tests. reflexivity.
Qed.

Lemma accept_ten (p : Player.t) (bp : option Vec3) :
  accept (mkLocals (Some p) (Some (100 - 0 - 90)) bp) = (Some p, Some (100 - 0 - 90)).
Proof.
  unfold accept, COLLISION_DISTANCE_HIGH_LIMIT. cbn [closest_player_distance fltb closest_player].
  real_tests. reflexivity.
Qed.

(** The detection pass on [lone_game]: one hit, at frame 2, by the player
    "p" at distance 10. *)
Lemma lone_game_run :
  get_hits_from_game sample_hitbox sample_unrotate sample_distance sample_id
                     lone_game [] no_goal_column =
  (Ok (<[2%Z := 0%nat]> ∅),
   [mkHit 2%Z None (Some "p"%string) (Some (100 - 0 - 90)) (vec 0 0 100)]).
Proof.
  unfold get_hits_from_game.
  rewrite (three_frame_candidates lone_game eq_refl).
  cbn [frames_loop]. unfold frame_step.
  rewrite (three_frame_team lone_game lone_team eq_refl eq_refl eq_refl).
  rewrite lone_team_loop, accept_ten. cbn [ball_position].
  rewrite (build_hit_ok sample_id no_goal_column 2 lone_player _ _ None) by reflexivity.
  reflexivity.
Qed.

(** ** The theorems at the sample matches *)

Lemma sample_dropped_iff_no_nonzero_value_witness :
  loc (Player.data lone_player) 2 = Ok level_row /\
  loc (Game.ball lone_game) 2 = Ok spun_row /\
  ((player_sample lone_game 2 lone_player (mkLocals None (Some 999999) None)).1 = Ok None <->
   Forall (fun e => e.2 = Some 0)
          (dropna (rotation_series (row_rot level_row) ++
                   position_series (vsub (ball_pos spun_row) (row_pos level_row))))) /\
  player_step sample_hitbox sample_unrotate sample_distance lone_game 2 lone_player
              (mkLocals None (Some 999999) None) =
  Ok (let d := sample_distance
                 (sample_unrotate (vsub (ball_pos spun_row) (row_pos level_row))
                                  (row_rot level_row))
                 (sample_hitbox 23) in
      if fltb d (Some 999999)
      then mkLocals (Some lone_player) d (Some (ball_pos spun_row))
      else mkLocals None (Some 999999) (Some (ball_pos spun_row))).
Proof.
  pose proof (sample_dropped_iff_no_nonzero_value
                sample_hitbox sample_unrotate sample_distance
                lone_game 2 lone_player (mkLocals None (Some 999999) None)
                level_row spun_row eq_refl eq_refl) as [Hiff [_ Hkept]].
  split_and!; [reflexivity | reflexivity | exact Hiff |].
  apply (Hkept 0 0 0 (0 - 0) (0 - 0) (100 - 0) 23%Z); [reflexivity | reflexivity | lra | reflexivity].
Defined.

Lemma hit_exactly_below_threshold_witness :
  team_loop sample_hitbox sample_unrotate sample_distance lone_game 2
            (Team.players lone_team) (mkLocals None (Some 999999) None) =
  Ok (mkLocals (Some lone_player) (Some (100 - 0 - 90)) (Some (vec 0 0 100))) /\
  forall p d,
    accept (mkLocals (Some lone_player) (Some (100 - 0 - 90)) (Some (vec 0 0 100))) = (Some p, d) ->
    exists m, d = Some m /\
      ((exists q, q ∈ Team.players lone_team /\
                  evaluated_distance sample_hitbox sample_unrotate sample_distance
                                     lone_game 2 q = Some (Some m)) /\
       (forall q y, q ∈ Team.players lone_team ->
                    evaluated_distance sample_hitbox sample_unrotate sample_distance
                                       lone_game 2 q = Some (Some y) -> m <= y)) /\
      m < 500.
Proof.
  split; [apply lone_team_loop|].
  apply (hit_exactly_below_threshold sample_hitbox sample_unrotate sample_distance
           lone_game 2 (Team.players lone_team) None _ (lone_team_loop None)).
Defined.

Lemma first_of_tied_teammates_is_striker_witness :
  team_loop sample_hitbox sample_unrotate sample_distance duo_game 2
            (Team.players duo_team) (mkLocals None (Some 999999) None) =
  Ok (mkLocals (Some lone_player) (Some (100 - 0 - 90)) (Some (vec 0 0 100))) /\
  accept (mkLocals (Some lone_player) (Some (100 - 0 - 90)) (Some (vec 0 0 100))) =
  (Some lone_player, Some (100 - 0 - 90)) /\
  exists m l1 l2,
    Some (100 - 0 - 90) = Some m /\ Team.players duo_team = l1 ++ lone_player :: l2 /\
    evaluated_distance sample_hitbox sample_unrotate sample_distance
                       duo_game 2 lone_player = Some (Some m) /\
    (forall q y, q ∈ l1 ->
       evaluated_distance sample_hitbox sample_unrotate sample_distance
                          duo_game 2 q = Some (Some y) -> m < y) /\
    (forall q y, q ∈ l2 ->
       evaluated_distance sample_hitbox sample_unrotate sample_distance
                          duo_game 2 q = Some (Some y) -> m <= y).
Proof.
  split_and!; [apply duo_team_loop | apply accept_ten |].
  apply (first_of_tied_teammates_is_striker sample_hitbox sample_unrotate sample_distance
           duo_game 2 (Team.players duo_team) None _ lone_player _
           (duo_team_loop None) (accept_ten lone_player _)).
Defined.

Lemma hit_event_fields_witness :
  get_hits_from_game sample_hitbox sample_unrotate sample_distance sample_id
                     lone_game [] no_goal_column =
  (Ok (<[2%Z := 0%nat]> ∅),
   [mkHit 2%Z None (Some "p"%string) (Some (100 - 0 - 90)) (vec 0 0 100)]) /\
  (<[2%Z := 0%nat]> (∅ : gmap Z nat)) !! 2%Z = Some 0%nat /\
  exists p d brow g h,
    resolve sample_hitbox sample_unrotate sample_distance lone_game 2 = Ok (Some (p, d)) /\
    loc (Game.ball lone_game) 2 = Ok brow /\
    loc no_goal_column 2 = Ok g /\
    [mkHit 2%Z None (Some "p"%string) (Some (100 - 0 - 90)) (vec 0 0 100)] !! 0%nat = Some h /\
    frame_number h = 2%Z /\
    goal_number h = g /\
    player_id h = Some (sample_id (Player.name p)) /\
    collision_distance h = d /\
    ball_data h = ball_pos brow.
Proof.
  split_and!; [apply lone_game_run | apply lookup_insert_eq |].
  apply (hit_event_fields sample_hitbox sample_unrotate sample_distance sample_id
           lone_game [] no_goal_column _ _ lone_game_run 2%Z 0%nat).
  apply lookup_insert_eq.
Defined.

Lemma hits_appended_in_frame_order_witness :
  StronglySorted Z.lt (index (Game.ball lone_game)) /\
  get_hits_from_game sample_hitbox sample_unrotate sample_distance sample_id
                     lone_game [] no_goal_column =
  (Ok (<[2%Z := 0%nat]> ∅),
   [mkHit 2%Z None (Some "p"%string) (Some (100 - 0 - 90)) (vec 0 0 100)]) /\
  exists new,
    [mkHit 2%Z None (Some "p"%string) (Some (100 - 0 - 90)) (vec 0 0 100)] = [] ++ new /\
    frame_number <$> new =
      filter (fun f => accepted sample_hitbox sample_unrotate sample_distance lone_game f = true)
             (get_hit_frame_numbers_by_ball_ang_vel lone_game) /\
    StronglySorted Z.lt (frame_number <$> new) /\
    forall f ref,
      (<[2%Z := 0%nat]> (∅ : gmap Z nat)) !! f = Some ref <->
      exists k h, new !! k = Some h /\ frame_number h = f /\ ref = (length (@nil (Hit string)) + k)%nat.
Proof.
  assert (Hsorted : StronglySorted Z.lt (index (Game.ball lone_game))).
  { cbn. repeat constructor; lia. }
  split_and!; [exact Hsorted | apply lone_game_run |].
  apply (hits_appended_in_frame_order sample_hitbox sample_unrotate sample_distance sample_id
           lone_game [] no_goal_column _ _ Hsorted lone_game_run).
Defined.


(** * Further properties of the module *)

(** ** The rotation matrix *)

Ltac unfold_rotation :=
  cbv [rotation_matrix get_rotation_matrix_from_row matmul mat_transpose det3 vec
       fcos fsin fadd fsub fmul fneg
       m00 m01 m02 m10 m11 m12 m20 m21 m22 pos_x pos_y pos_z].

Ltac name_trigonometry pitch yaw roll :=
  let Hp := fresh "Hp" in let Hy := fresh "Hy" in let Hr := fresh "Hr" in
  pose proof (sin_cos_unit pitch) as Hp;
  pose proof (sin_cos_unit yaw) as Hy;
  pose proof (sin_cos_unit roll) as Hr;
  generalize dependent (cos pitch); generalize dependent (sin pitch);
  generalize dependent (cos yaw); generalize dependent (sin yaw);
  generalize dependent (cos roll); generalize dependent (sin roll);
  intros.

(** X1. The transpose undoes the matrix: for every rotation triple and
    every displacement d, transpose(R) * (R * d) = d.  What
    [get_local_displacement] returns, R * d, determines d. *)
Theorem transpose_undoes_rotation (pitch yaw roll x y z : R) :
  let R := rotation_matrix (Some pitch) (Some yaw) (Some roll) in
  matmul (mat_transpose R) (matmul R (vec x y z)) = vec x y z.
Proof.
  unfold_rotation. name_trigonometry pitch yaw roll.
  f_equal; f_equal; nsatz.
Qed.

(** X2. The matrix of every rotation triple has determinant 1: it is a
    rotation, never a reflection. *)
Theorem rotation_determinant_one (pitch yaw roll : R) :
  det3 (rotation_matrix (Some pitch) (Some yaw) (Some roll)) = Some 1.
Proof.
  unfold_rotation. name_trigonometry pitch yaw roll.
  f_equal; nsatz.
Qed.

(** ** World distances *)

Lemma fsqrt_nonneg (x : R) : 0 <= x -> fsqrt (Some x) = Some (sqrt x).
Proof. intros Hx. unfold fsqrt. rewrite Rltb_false by lra. reflexivity. Qed.

Lemma row_distance_defined (x y z : R) :
  row_distance (vec x y z) = Some (sqrt (x * x + (y * y + (z * z + 0)))).
Proof.
  cbv [row_distance vec pos_x pos_y pos_z fmul sum_skipna fold_right].
  apply fsqrt_nonneg. nra.
Qed.

(** The sum of the squares of the defined components of a row. *)
Lemma row_distance_sum (v : Vec3) :
  exists s, 0 <= s /\
    row_distance v = Some (sqrt s) /\
    (s = 0 <-> (pos_x v = NaN \/ pos_x v = Some 0) /\
               (pos_y v = NaN \/ pos_y v = Some 0) /\
               (pos_z v = NaN \/ pos_z v = Some 0)).
Proof.
  destruct v as [[x|] [y|] [z|]];
    cbv [row_distance pos_x pos_y pos_z fmul sum_skipna fold_right NaN];
    eexists; (split; [|split; [apply fsqrt_nonneg|]]); try nra;
    (split;
     [ intros Hs; split_and!; first [left; reflexivity | right; f_equal; nra]
     | intros (Hx & Hy & Hz);
       repeat match goal with
              | H : _ \/ _ |- _ => destruct H as [H|H]; try discriminate
              | H : Some _ = Some _ |- _ => injection H as ->
              end; lra ]).
Qed.

(** X3. The world distance of a row is a number, never NaN and never
    negative: the undefined components are left out of the sum of squares.
    It is 0 exactly when every component is undefined or zero, so a row that
    is missing altogether has distance 0; and the table keeps the index of
    the displacements. *)
Theorem world_distance_skips_missing_components (data_frame : Frame Vec3) :
  index (get_distance_from_displacements data_frame) = index data_frame /\
  (forall v, exists r, row_distance v = Some r /\ 0 <= r) /\
  (forall v, row_distance v = Some 0 <->
             (pos_x v = NaN \/ pos_x v = Some 0) /\
             (pos_y v = NaN \/ pos_y v = Some 0) /\
             (pos_z v = NaN \/ pos_z v = Some 0)) /\
  row_distance (mkVec3 NaN NaN NaN) = Some 0 /\
  (forall x y z, row_distance (vec x y z) = Some (sqrt (x * x + y * y + z * z))) /\
  (forall x, row_distance (mkVec3 (Some x) NaN NaN) = Some (Rabs x)).
Proof.
  split_and!.
  - unfold get_distance_from_displacements, index.
    rewrite <- list_fmap_compose. apply list_fmap_ext. intros i [f v] _. reflexivity.
  - intros v. destruct (row_distance_sum v) as (s & Hs & -> & _).
    eexists. split; [reflexivity | apply sqrt_pos].
  - intros v. destruct (row_distance_sum v) as (s & Hs & -> & Hzero).
    rewrite <- Hzero. split.
    + intros [= H0]. apply sqrt_eq_0; assumption.
    + intros ->. rewrite sqrt_0. reflexivity.
  - destruct (row_distance_sum (mkVec3 NaN NaN NaN)) as (s & Hs & -> & Hzero).
    replace s with 0; [rewrite sqrt_0; reflexivity|].
    symmetry. apply Hzero. cbn. auto.
  - intros x y z. rewrite row_distance_defined. do 2 f_equal. lra.
  - intros x. cbv [row_distance pos_x pos_y pos_z fmul sum_skipna fold_right NaN].
    rewrite fsqrt_nonneg by nra. f_equal.
    replace (x * x + 0) with (Rsqr x) by (unfold Rsqr; lra). apply sqrt_Rsqr_abs.
Qed.

(** X4. The rotation keeps the world distance: for every rotation triple
    and every displacement, [get_distance_from_displacements] gives the same
    value on R * d, on transpose(R) * d and on d. *)
Theorem rotation_keeps_world_distance (pitch yaw roll x y z : R) :
  let R := rotation_matrix (Some pitch) (Some yaw) (Some roll) in
  row_distance (matmul R (vec x y z)) = row_distance (vec x y z) /\
  row_distance (matmul (mat_transpose R) (vec x y z)) = row_distance (vec x y z).
Proof.
  cbv zeta. split.
  - unfold_rotation. fold (vec x y z).
    match goal with
    | |- row_distance {| pos_x := Some ?a; pos_y := Some ?b; pos_z := Some ?c |} = _ =>
      change (row_distance (vec a b c) = row_distance (vec x y z))
    end.
    rewrite !row_distance_defined. do 2 f_equal.
    name_trigonometry pitch yaw roll. nsatz.
  - unfold_rotation. fold (vec x y z).
    match goal with
    | |- row_distance {| pos_x := Some ?a; pos_y := Some ?b; pos_z := Some ?c |} = _ =>
      change (row_distance (vec a b c) = row_distance (vec x y z))
    end.
    rewrite !row_distance_defined. do 2 f_equal.
    name_trigonometry pitch yaw roll. nsatz.
Qed.

(** ** Undefined samples in the batch pipeline *)

(** X5. Missing values stay missing through the rotation.  A displacement
    with an undefined component, an undefined pitch or an undefined roll
    make all three components of the product undefined.  An undefined yaw
    leaves the third row of the matrix defined: the x and y components of
    the product are undefined and the z component is a number. *)
Theorem undefined_sample_gives_undefined_local :
  (forall m y z, matmul m (mkVec3 NaN y z) = mkVec3 NaN NaN NaN) /\
  (forall m x z, matmul m (mkVec3 x NaN z) = mkVec3 NaN NaN NaN) /\
  (forall m x y, matmul m (mkVec3 x y NaN) = mkVec3 NaN NaN NaN) /\
  (forall yaw roll v,
      matmul (rotation_matrix NaN yaw roll) v = mkVec3 NaN NaN NaN) /\
  (forall pitch yaw v,
      matmul (rotation_matrix pitch yaw NaN) v = mkVec3 NaN NaN NaN) /\
  (forall pitch roll x y z : R,
      matmul (rotation_matrix (Some pitch) NaN (Some roll)) (vec x y z) =
      mkVec3 NaN NaN
             (Some (sin pitch * x + - cos pitch * sin roll * y
                    + cos pitch * cos roll * z))).
Proof.
  split_and!.
  - intros [[?|] [?|] [?|] [?|] [?|] [?|] [?|] [?|] [?|]] [?|] [?|]; reflexivity.
  - intros [[?|] [?|] [?|] [?|] [?|] [?|] [?|] [?|] [?|]] [?|] [?|]; reflexivity.
  - intros [[?|] [?|] [?|] [?|] [?|] [?|] [?|] [?|] [?|]] [?|] [?|]; reflexivity.
  - intros [?|] [?|] [[?|] [?|] [?|]]; reflexivity.
  - intros [?|] [?|] [[?|] [?|] [?|]]; reflexivity.
  - intros pitch roll x y z. reflexivity.
Qed.

(** ** Shapes and errors of the batch pipeline *)

Lemma index_mkFrame {A : Type} (idx : list Z) (vals : list A) :
  length idx = length vals -> index (mkFrame idx vals) = idx.
Proof. intros Hlen. unfold index, mkFrame. apply fst_zip. lia. Qed.

Lemma values_mkFrame {A : Type} (idx : list Z) (vals : list A) :
  length idx = length vals -> values (mkFrame idx vals) = vals.
Proof. intros Hlen. unfold values, mkFrame. apply snd_zip. lia. Qed.

Lemma mkFrame_index_values {A : Type} (df : Frame A) :
  mkFrame (index df) (values df) = df.
Proof. unfold mkFrame, index, values. apply zip_fst_snd. Qed.

(** X6. [get_local_displacement] raises [ValueError], and nothing else,
    exactly when it is given no rotation matrix, or matrices that are
    neither one per displacement nor a single one.  A single matrix is
    applied to every displacement.  When it returns, the result has the index
    of the displacements and one row per displacement. *)
Theorem local_displacement_shapes (displacement : Frame Vec3)
    (rotation_matrices : Frame Mat3) :
  (get_local_displacement displacement rotation_matrices = Raise ValueError <->
   rotation_matrices = [] \/
   (length rotation_matrices <> length displacement /\
    length rotation_matrices <> 1%nat)) /\
  (forall e, get_local_displacement displacement rotation_matrices = Raise e ->
             e = ValueError) /\
  (forall local, get_local_displacement displacement rotation_matrices = Ok local ->
                 index local = index displacement /\
                 length local = length displacement) /\
  (forall i m, rotation_matrices = [(i, m)] ->
               get_local_displacement displacement rotation_matrices =
               Ok (mkFrame (index displacement) (matmul m <$> values displacement))).
Proof.
  assert (Hcases :
    (rotation_matrices = [] /\
     get_local_displacement displacement rotation_matrices = Raise ValueError) \/
    (rotation_matrices <> [] /\ length rotation_matrices = length displacement /\
     get_local_displacement displacement rotation_matrices =
     Ok (mkFrame (index displacement)
                 (zip_with matmul (values rotation_matrices) (values displacement)))) \/
    (length rotation_matrices <> length displacement /\
     (exists i m, rotation_matrices = [(i, m)]) /\
     get_local_displacement displacement rotation_matrices =
     Ok (mkFrame (index displacement)
                 (matmul (default (mkMat3 NaN NaN NaN NaN NaN NaN NaN NaN NaN)
                                  (head (values rotation_matrices)))
                    <$> values displacement))) \/
    (rotation_matrices <> [] /\ length rotation_matrices <> length displacement /\
     length rotation_matrices <> 1%nat /\
     get_local_displacement displacement rotation_matrices = Raise ValueError)).
  { destruct rotation_matrices as [|[i m] rest]; [left; done|]. right.
    destruct (decide (length ((i, m) :: rest) = length displacement)) as [Heq|Hne].
    - left. split; [done|]. split; [assumption|].
      apply get_local_displacement_rows; done.
    - right. unfold get_local_displacement, np_transpose, matmul_stack, values, index.
      cbn [fmap list_fmap snd]. rewrite !length_fmap. cbn [length] in *.
      destruct (decide (S (length (snd <$> rest)) = length displacement)) as [Heq|_].
      { rewrite length_fmap in Heq. contradiction. }
      destruct rest as [|q rest]; cbn [fmap list_fmap].
      + left. split; [assumption|]. split; [eauto|].
        rewrite !length_fmap.
        destruct (decide (length displacement = length displacement)); [|contradiction].
        reflexivity.
      + right. split_and!; [done | assumption | cbn; lia | reflexivity]. }
  split_and!.
  - split.
    + intros Hraise.
      destruct Hcases as [[-> _] | [(_ & _ & H) | [(_ & _ & H) | (_ & ? & ? & _)]]];
        [left; reflexivity | congruence | congruence | right; done].
    + intros [-> | [Hne H1]]; [reflexivity|].
      destruct Hcases as [[_ H] | [(_ & Heq & _) | [(_ & (i & m & ->) & _) | (_ & _ & _ & H)]]];
        [exact H | contradiction | cbn in H1; contradiction | exact H].
  - intros e He.
    destruct Hcases as [[_ H] | [(_ & _ & H) | [(_ & _ & H) | (_ & _ & _ & H)]]];
      congruence.
  - intros local Hok.
    destruct Hcases as [[_ H] | [(_ & Heq & H) | [(_ & _ & H) | (_ & _ & _ & H)]]];
      try congruence; rewrite H in Hok; injection Hok as <-.
    + assert (Hlen : length (index displacement) =
                     length (zip_with matmul (values rotation_matrices) (values displacement))).
      { unfold index, values. rewrite length_zip_with, !length_fmap. lia. }
      split; [apply index_mkFrame, Hlen|].
      unfold mkFrame. rewrite length_zip, <- Hlen, Nat.min_id.
      unfold index. apply length_fmap.
    + assert (Hlen : length (index displacement) =
                     length (matmul (default (mkMat3 NaN NaN NaN NaN NaN NaN NaN NaN NaN)
                                        (head (values rotation_matrices)))
                               <$> values displacement)).
      { unfold index, values. rewrite !length_fmap. reflexivity. }
      split; [apply index_mkFrame, Hlen|].
      unfold mkFrame. rewrite length_zip, <- Hlen, Nat.min_id.
      unfold index. apply length_fmap.
  - intros i m ->.
    unfold get_local_displacement, np_transpose, matmul_stack, values, index.
    cbn [fmap list_fmap snd length]. rewrite !length_fmap.
    destruct (decide (1%nat = length displacement)) as [Heq|Hne].
    + destruct displacement as [|[j v] [|? ?]]; try discriminate.
      cbn. reflexivity.
    + rewrite !length_fmap.
      destruct (decide (length displacement = length displacement)); [|contradiction].
      reflexivity.
Qed.

Lemma zip_with_matmul_rows (prows brows : list Row) :
  zip_with matmul
    ((fun r => rotation_matrix (rot_x (row_rot r)) (rot_y (row_rot r)) (rot_z (row_rot r)))
       <$> prows)
    (zip_with vsub (row_pos <$> prows) (row_pos <$> brows)) =
  zip_with batch_local_row prows brows.
Proof.
  revert brows. induction prows as [|p prows IH]; intros [|b brows]; cbn; try reflexivity.
  f_equal. apply IH.
Qed.

Lemma local_displacement_of_rows (idx : list Z) (prows brows : list Row) :
  length prows = length idx -> length brows = length idx -> idx <> [] ->
  get_local_displacement
    (mkFrame idx (zip_with vsub (row_pos <$> prows) (row_pos <$> brows)))
    (mkFrame idx
       ((fun r => rotation_matrix (rot_x (row_rot r)) (rot_y (row_rot r)) (rot_z (row_rot r)))
          <$> prows)) =
  Ok (mkFrame idx (zip_with batch_local_row prows brows)).
Proof.
  intros Hlp Hlb Hne.
  rewrite get_local_displacement_rows.
  - rewrite index_mkFrame, !values_mkFrame, zip_with_matmul_rows;
      rewrite ?length_zip_with, ?length_fmap; (reflexivity || lia).
  - unfold mkFrame. rewrite !length_zip, length_zip_with, !length_fmap. lia.
  - unfold mkFrame. destruct idx; [contradiction|].
    destruct prows; [discriminate|]. discriminate.
Qed.

(** X7. For a player and a ball that have one row per candidate frame, at
    least one, the three stages of the batch pipeline succeed one after the
    other, and the local displacement at every candidate frame is the
    rotation matrix of the player's row applied to the player's position
    minus the ball's position. *)
Theorem batch_pipeline_rows (hit_frames : HitFrames) (player_name : string)
    (prows brows : list Row) :
  hf_entity hit_frames !! player_name = Some prows ->
  hf_entity hit_frames !! "ball"%string = Some brows ->
  length prows = length (hf_index hit_frames) ->
  length brows = length (hf_index hit_frames) ->
  hf_index hit_frames <> [] ->
  exists displacement rotation_matrices,
    get_player_ball_displacements hit_frames player_name = Ok displacement /\
    get_rotation_matrices hit_frames player_name = Ok rotation_matrices /\
    get_local_displacement displacement rotation_matrices =
    Ok (mkFrame (hf_index hit_frames) (zip_with batch_local_row prows brows)).
Proof.
  intros Hp Hb Hlp Hlb Hne.
  unfold get_player_ball_displacements, get_rotation_matrices. rewrite Hp, Hb.
  eexists _, _. split_and!; [reflexivity.. |].
  apply local_displacement_of_rows; assumption.
Qed.

(** ** Dictionaries keyed by player name *)

Lemma player_car_spec (p : Player.t) :
  (player_car p = Raise IndexError <-> Player.loadout p = []) /\
  (forall e, player_car p = Raise e -> e = IndexError) /\
  (forall l, Player.loadout p = [l] -> player_car p = Ok (car l)) /\
  (forall l0 l1 rest, Player.loadout p = l0 :: l1 :: rest ->
     player_car p = Ok (car (if Player.is_orange p then l1 else l0))).
Proof.
  unfold player_car. destruct (Player.loadout p) as [|l0 [|l1 rest]].
  - split_and!; [done | intros e [= <-]; done | discriminate | discriminate].
  - split_and!; [split; discriminate | discriminate | intros l [= <-]; done | discriminate].
  - destruct (Player.is_orange p); cbn;
      (split_and!; [split; discriminate | discriminate | discriminate
                   | intros ? ? ? [= <- <- <-]; done]).
Qed.

Lemma player_dict_ok {V : Type} (value : Player.t -> outcome V) (g : Player.t -> V)
    (players : list Player.t) (dict : gmap string V) :
  (forall p, p ∈ players -> value p = Ok (g p)) ->
  player_dict value players dict =
  Ok (foldl (fun d p => <[Player.name p := g p]> d) dict players).
Proof.
  revert dict. induction players as [|p rest IH]; intros dict Hok; [reflexivity|].
  cbn [player_dict foldl]. rewrite (Hok p) by left. cbn.
  apply IH. intros q Hq. apply Hok. right. exact Hq.
Qed.

Lemma player_dict_raise {V : Type} (value : Player.t -> outcome V)
    (players : list Player.t) (dict : gmap string V) (e : exn) :
  player_dict value players dict = Raise e ->
  exists p, p ∈ players /\ value p = Raise e.
Proof.
  revert dict. induction players as [|p rest IH]; intros dict; [discriminate|].
  cbn [player_dict]. destruct (value p) as [v|e'] eqn:Hp; cbn.
  - intros H. destruct (IH _ H) as (q & Hq & Hraise). exists q. split; [right|]; assumption.
  - intros [= <-]. exists p. split; [left | assumption].
Qed.

Lemma player_dict_complete {V : Type} (value : Player.t -> outcome V)
    (players : list Player.t) (dict : gmap string V) :
  (exists d, player_dict value players dict = Ok d) <->
  forall p, p ∈ players -> exists v, value p = Ok v.
Proof.
  revert dict. induction players as [|p rest IH]; intros dict.
  - split; [|eauto]. intros _ p Hp. apply elem_of_nil in Hp as [].
  - cbn [player_dict]. destruct (value p) as [v|e] eqn:Hp; cbn.
    + rewrite IH. split.
      * intros H q Hq. apply elem_of_cons in Hq as [-> | Hq]; eauto.
      * intros H q Hq. apply H. right. exact Hq.
    + split; [intros [d [=]]|].
      intros H. destruct (H p) as [v Hv]; [left|]. congruence.
Qed.

Lemma foldl_insert_names {V : Type} (g : Player.t -> V) (players : list Player.t)
    (dict : gmap string V) (n : string) :
  is_Some (foldl (fun d p => <[Player.name p := g p]> d) dict players !! n) <->
  n ∈ Player.name <$> players \/ is_Some (dict !! n).
Proof.
  revert dict. induction players as [|p rest IH]; intros dict; cbn [foldl fmap list_fmap].
  - rewrite elem_of_nil. tauto.
  - rewrite IH, elem_of_cons, lookup_insert_is_Some. 
    destruct (decide (Player.name p = n)); split; intros; intuition congruence.
Qed.

Lemma foldl_insert_last {V : Type} (g : Player.t -> V) (l1 l2 : list Player.t)
    (p : Player.t) (dict : gmap string V) :
  Player.name p ∉ Player.name <$> l2 ->
  foldl (fun d q => <[Player.name q := g q]> d) dict (l1 ++ p :: l2) !! Player.name p =
  Some (g p).
Proof.
  intros Hlast. rewrite foldl_app. cbn [foldl].
  generalize (foldl (fun d q => <[Player.name q := g q]> d) dict l1). intros d.
  assert (Hin : <[Player.name p := g p]> d !! Player.name p = Some (g p))
    by apply lookup_insert_eq.
  revert Hin. generalize (<[Player.name p := g p]> d). clear d.
  induction l2 as [|q l2 IH]; intros d Hd; [exact Hd|].
  cbn [foldl]. cbn in Hlast. apply not_elem_of_cons in Hlast as [Hne Hlast].
  apply IH; [exact Hlast|]. rewrite lookup_insert_ne by congruence. exact Hd.
Qed.

Section BatchFacts.
Context {Hitbox : Type}.
Variable Hitbox_init : Z -> Hitbox.
Variable get_collision_distance : Hitbox -> Vec3 -> float.

Local Abbreviation hitbox_of :=
  (fun player => car_item_id ← player_car player; Ok (Hitbox_init car_item_id)).

Lemma hitbox_of_ok (p : Player.t) (c : Z) :
  player_car p = Ok c -> hitbox_of p = Ok (Hitbox_init c).
Proof. intros H. cbv beta. rewrite H. reflexivity. Qed.

Lemma hitbox_of_raise (p : Player.t) (e : exn) :
  hitbox_of p = Raise e <-> player_car p = Raise e.
Proof. cbv beta. destruct (player_car p); cbn; split; congruence. Qed.

(** X8. [get_player_hitboxes] raises [IndexError], and nothing else, exactly
    when a player of the game has an empty loadout.  When it returns, the
    dictionary has an entry for the name of every player and for no other
    name; the entry of a name is the hitbox of the car of the last player
    of that name: the only entry of its loadout, or else the second entry for
    an orange player and the first for a blue one. *)
Theorem player_hitboxes_by_name (game : Game.t) :
  (get_player_hitboxes Hitbox_init game = Raise IndexError <->
   exists p, p ∈ Game.players game /\ Player.loadout p = []) /\
  (forall e, get_player_hitboxes Hitbox_init game = Raise e -> e = IndexError) /\
  (forall m, get_player_hitboxes Hitbox_init game = Ok m ->
     (forall n, is_Some (m !! n) <-> n ∈ Player.name <$> Game.players game) /\
     (forall l1 p l2,
         Game.players game = l1 ++ p :: l2 ->
         (Player.name p ∉ Player.name <$> l2) ->
         exists c, player_car p = Ok c /\ m !! Player.name p = Some (Hitbox_init c) /\
                   (forall l, Player.loadout p = [l] -> c = car l) /\
                   (forall l0 l1' rest, Player.loadout p = l0 :: l1' :: rest ->
                      c = car (if Player.is_orange p then l1' else l0)))).
Proof.
  unfold get_player_hitboxes.
  assert (Hraise : forall e, player_dict hitbox_of (Game.players game) ∅ = Raise e ->
                     e = IndexError /\
                     exists p, p ∈ Game.players game /\ Player.loadout p = []).
  { intros e He. apply player_dict_raise in He as (p & Hp & He).
    apply hitbox_of_raise in He.
    destruct (player_car_spec p) as (Hempty & Honly & _).
    pose proof (Honly _ He) as ->. split; [reflexivity|].
    exists p. split; [assumption | apply Hempty, He]. }
  split_and!.
  - split; [intros He; apply (Hraise _ He)|].
    intros (p & Hp & Hempty).
    destruct (player_dict hitbox_of (Game.players game) ∅) as [m|e] eqn:Hm.
    + destruct (proj1 (player_dict_complete hitbox_of (Game.players game) ∅)
                  (ex_intro _ m Hm) p Hp) as [v Hv].
      apply (proj1 (player_car_spec p)) in Hempty.
      apply hitbox_of_raise in Hempty. cbv beta in Hv. congruence.
    + destruct (Hraise _ eq_refl) as [-> _]. reflexivity.
  - intros e He. apply (Hraise _ He).
  - intros m Hm.
    assert (Hall : forall p, p ∈ Game.players game -> exists c, player_car p = Ok c).
    { intros p Hp.
      destruct (proj1 (player_dict_complete hitbox_of (Game.players game) ∅)
                  (ex_intro _ m Hm) p Hp) as [v Hv].
      cbv beta in Hv. destruct (player_car p) as [c|]; [eauto | discriminate]. }
    set (car_of := fun p => match player_car p with Ok c => c | Raise _ => 0%Z end).
    rewrite (player_dict_ok _ (fun p => Hitbox_init (car_of p))) in Hm.
    2: { intros p Hp. destruct (Hall p Hp) as [c Hc]. unfold car_of. rewrite Hc. reflexivity. }
    injection Hm as <-. split.
    + intros n. rewrite foldl_insert_names, lookup_empty, is_Some_alt. tauto.
    + intros l1 p l2 Hplayers Hlast.
      destruct (Hall p) as [c Hc]; [rewrite Hplayers; apply elem_of_app; right; left|].
      exists c. split; [assumption|].
      destruct (player_car_spec p) as (_ & _ & Hone & Htwo).
      split_and!.
      * rewrite Hplayers, (foldl_insert_last _ _ _ _ _ Hlast).
        unfold car_of. rewrite Hc. reflexivity.
      * intros l Hl. rewrite (Hone _ Hl) in Hc. congruence.
      * intros l0 l1' rest Hl. rewrite (Htwo _ _ _ Hl) in Hc. congruence.
Qed.

Lemma last_of_name (players : list Player.t) (n : string) :
  n ∈ Player.name <$> players ->
  exists l1 q l2, players = l1 ++ q :: l2 /\ Player.name q = n /\
                  (n ∉ Player.name <$> l2).
Proof.
  induction players as [|a rest IH]; cbn [fmap list_fmap]; intros Hin.
  - apply elem_of_nil in Hin as [].
  - destruct (decide (n ∈ Player.name <$> rest)) as [Hrest|Hnot].
    + destruct (IH Hrest) as (l1 & q & l2 & -> & Hq & Hl2).
      exists (a :: l1), q, l2. done.
    + apply elem_of_cons in Hin as [-> | Hin]; [|contradiction].
      exists [], a, rest. done.
Qed.

Lemma foldl_insert_determined {V : Type} (g : Player.t -> V) (players : list Player.t)
    (dict : gmap string V) (n : string) (v : V) :
  (forall q, q ∈ players -> Player.name q = n -> g q = v) ->
  n ∈ Player.name <$> players ->
  foldl (fun d q => <[Player.name q := g q]> d) dict players !! n = Some v.
Proof.
  intros Hdet Hin.
  destruct (last_of_name players n Hin) as (l1 & q & l2 & -> & <- & Hl2).
  rewrite (foldl_insert_last g l1 l2 q dict Hl2). f_equal.
  apply Hdet; [|reflexivity]. apply elem_of_app. right. left.
Qed.

Local Abbreviation tables := (batch_tables Hitbox_init get_collision_distance).

Lemma displacements_raise_KeyError (hit_frames : HitFrames) (n : string) (e : exn) :
  get_player_ball_displacements hit_frames n = Raise e -> e = KeyError.
Proof.
  unfold get_player_ball_displacements.
  destruct (hf_entity hit_frames !! n); [|congruence].
  destruct (hf_entity hit_frames !! "ball"%string); congruence.
Qed.

(** The columns of a name in [hit_frames], none when it has no column. *)
Local Abbreviation column hit_frames n := (default [] (hf_entity hit_frames !! n)).

Lemma displacements_ok (hit_frames : HitFrames) (n : string) (brows : list Row) :
  is_Some (hf_entity hit_frames !! n) ->
  hf_entity hit_frames !! "ball"%string = Some brows ->
  get_player_ball_displacements hit_frames n =
  Ok (mkFrame (hf_index hit_frames)
              (zip_with vsub (row_pos <$> column hit_frames n) (row_pos <$> brows))).
Proof.
  intros [prows Hp] Hb. unfold get_player_ball_displacements. rewrite Hp, Hb. reflexivity.
Qed.

Lemma rotation_matrices_ok (hit_frames : HitFrames) (n : string) :
  is_Some (hf_entity hit_frames !! n) ->
  get_rotation_matrices hit_frames n =
  Ok (mkFrame (hf_index hit_frames)
        ((fun r => rotation_matrix (rot_x (row_rot r)) (rot_y (row_rot r)) (rot_z (row_rot r)))
           <$> column hit_frames n)).
Proof.
  intros [prows Hp]. unfold get_rotation_matrices. rewrite Hp. reflexivity.
Qed.

Lemma size_fmap_foldl_insert {V W : Type} (h : V -> W) (g : Player.t -> V)
    (p : Player.t) (rest : list Player.t) :
  size (h <$> foldl (fun d q => <[Player.name q := g q]> d) (∅ : gmap string V) (p :: rest))
  <> 0%nat.
Proof.
  rewrite map_size_fmap. intros Hsize. apply map_size_empty_iff in Hsize.
  assert (Hin : is_Some (foldl (fun d q => <[Player.name q := g q]> d)
                               (∅ : gmap string V) (p :: rest) !! Player.name p)).
  { apply foldl_insert_names. left. cbn. left. }
  rewrite Hsize, lookup_empty in Hin. destruct Hin as [? [=]].
Qed.

(** X9. The tables of the batch pipeline cannot be built for every match:
    without a player [pd.concat] raises [ValueError]; a player, or the ball,
    without columns in [hit_frames] raises [KeyError]; and without a
    candidate frame, the players and the ball having their columns,
    [get_local_displacement] raises [ValueError]. *)
Theorem batch_tables_errors (game : Game.t) (hit_frames : HitFrames) :
  (Game.players game = [] -> tables game hit_frames = Raise ValueError) /\
  ((exists p, p ∈ Game.players game /\ hf_entity hit_frames !! Player.name p = None) ->
   tables game hit_frames = Raise KeyError) /\
  (Game.players game <> [] -> hf_entity hit_frames !! "ball"%string = None ->
   tables game hit_frames = Raise KeyError) /\
  (Game.players game <> [] ->
   (forall p, p ∈ Game.players game -> is_Some (hf_entity hit_frames !! Player.name p)) ->
   is_Some (hf_entity hit_frames !! "ball"%string) ->
   hf_index hit_frames = [] ->
   tables game hit_frames = Raise ValueError).
Proof.
  assert (Hkey : (exists p, p ∈ Game.players game /\
                    exists e, get_player_ball_displacements hit_frames (Player.name p) = Raise e) ->
                 tables game hit_frames = Raise KeyError).
  { intros (p & Hp & e & He). unfold batch_tables.
    destruct (player_dict (fun player =>
                get_player_ball_displacements hit_frames (Player.name player))
                (Game.players game) ∅) as [d|e'] eqn:Hd.
    - destruct (proj1 (player_dict_complete _ _ _) (ex_intro _ d Hd) p Hp) as [v Hv].
      cbv beta in Hv. congruence.
    - apply player_dict_raise in Hd as (q & _ & Hq).
      apply displacements_raise_KeyError in Hq as ->. reflexivity. }
  split_and!.
  - intros Hnone. unfold batch_tables. rewrite Hnone. reflexivity.
  - intros (p & Hp & Hcol). apply Hkey. exists p. split; [assumption|].
    exists KeyError. unfold get_player_ball_displacements. rewrite Hcol. reflexivity.
  - intros Hne Hball. apply Hkey. destruct (Game.players game) as [|p rest]; [contradiction|].
    exists p. split; [left|]. exists KeyError.
    unfold get_player_ball_displacements. rewrite Hball.
    destruct (hf_entity hit_frames !! Player.name p); reflexivity.
  - intros Hne Hcols [brows Hball] Hidx. unfold batch_tables.
    destruct (Game.players game) as [|p rest] eqn:Hplayers; [contradiction|]. clear Hne.
    rewrite (player_dict_ok _
               (fun q => mkFrame (hf_index hit_frames)
                           (zip_with vsub (row_pos <$> column hit_frames (Player.name q))
                                     (row_pos <$> brows)))).
    2: { intros q Hq. apply displacements_ok; [apply Hcols, Hq | assumption]. }
    cbn [mbind outcome_bind].
    destruct (decide _) as [Hsize|_]; [apply size_fmap_foldl_insert in Hsize as []|].
    rewrite (player_dict_ok _
               (fun q => mkFrame (hf_index hit_frames)
                  ((fun r => rotation_matrix (rot_x (row_rot r)) (rot_y (row_rot r))
                                            (rot_z (row_rot r)))
                     <$> column hit_frames (Player.name q)))).
    2: { intros q Hq. apply rotation_matrices_ok, Hcols, Hq. }
    cbn [mbind outcome_bind player_dict].
    rewrite (foldl_insert_determined _ (p :: rest) ∅ (Player.name p) []).
    2: { intros q _ _. rewrite Hidx. reflexivity. }
    2: { cbn. left. }
    rewrite (foldl_insert_determined _ (p :: rest) ∅ (Player.name p) []).
    2: { intros q _ _. rewrite Hidx. reflexivity. }
    2: { cbn. left. }
    reflexivity.
Qed.

Lemma fmap_mkFrame {A B : Type} (h : A -> B) (idx : list Z) (vals : list A) :
  (fun r => (r.1, h r.2)) <$> mkFrame idx vals = mkFrame idx (h <$> vals).
Proof.
  unfold mkFrame. revert vals. induction idx as [|i idx IH]; intros [|v vals]; cbn;
    try reflexivity.
  f_equal. apply IH.
Qed.

Lemma fmap_zip_with_rows {A B C D : Type} (h : C -> D) (g : A -> B -> C)
    (l : list A) (k : list B) :
  h <$> zip_with g l k = zip_with (fun x y => h (g x y)) l k.
Proof.
  revert k. induction l as [|x l IH]; intros [|y k]; cbn; try reflexivity.
  f_equal. apply IH.
Qed.

Lemma zip_with_vsub_rows (prows brows : list Row) :
  zip_with vsub (row_pos <$> prows) (row_pos <$> brows) =
  zip_with (fun pr br => vsub (row_pos pr) (row_pos br)) prows brows.
Proof.
  revert brows. induction prows as [|p prows IH]; intros [|b brows]; cbn; try reflexivity.
  f_equal. apply IH.
Qed.

Lemma player_list_ok {V : Type} (value : Player.t -> outcome V) (g : Player.t -> V)
    (players : list Player.t) :
  (forall p, p ∈ players -> value p = Ok (g p)) ->
  player_list value players = Ok (g <$> players).
Proof.
  induction players as [|p rest IH]; intros Hok; [reflexivity|].
  cbn [player_list]. rewrite (Hok p) by left. cbn.
  rewrite IH; [reflexivity|]. intros q Hq. apply Hok. right. exact Hq.
Qed.

Lemma name_unique (players : list Player.t) (p q : Player.t) :
  NoDup (Player.name <$> players) ->
  p ∈ players -> q ∈ players -> Player.name q = Player.name p -> q = p.
Proof.
  induction players as [|a rest IH]; cbn [fmap list_fmap]; intros Hnd Hp Hq Hname.
  - apply elem_of_nil in Hp as [].
  - apply NoDup_cons in Hnd as [Ha Hnd].
    apply elem_of_cons in Hp as [-> | Hp]; apply elem_of_cons in Hq as [-> | Hq].
    + reflexivity.
    + exfalso. apply Ha. rewrite <- Hname. apply list_elem_of_fmap_2. exact Hq.
    + exfalso. apply Ha. rewrite Hname. apply list_elem_of_fmap_2. exact Hp.
    + apply IH; assumption.
Qed.

(** X10. For a match of at least one player, the players having distinct
    names and nonempty loadouts, and for [hit_frames] with at least one
    candidate frame and one row per frame for every player and for the ball,
    the tables of the batch pipeline are built.  The collision column of
    every player, in the order of the players, holds at every candidate
    frame the distance of its hitbox to R applied to the player's position
    minus the ball's position; the world distance of every player is that
    of the same displacement. *)
Theorem batch_tables_rows (game : Game.t) (hit_frames : HitFrames) (brows : list Row) :
  NoDup (Player.name <$> Game.players game) ->
  Game.players game <> [] ->
  (forall p, p ∈ Game.players game ->
     exists prows, hf_entity hit_frames !! Player.name p = Some prows /\
                   length prows = length (hf_index hit_frames)) ->
  hf_entity hit_frames !! "ball"%string = Some brows ->
  length brows = length (hf_index hit_frames) ->
  hf_index hit_frames <> [] ->
  (forall p, p ∈ Game.players game -> Player.loadout p <> []) ->
  exists distances collisions,
    tables game hit_frames = Ok (distances, collisions) /\
    Forall2 (fun p col =>
               exists prows c,
                 hf_entity hit_frames !! Player.name p = Some prows /\
                 player_car p = Ok c /\
                 col = (Player.name p,
                        mkFrame (hf_index hit_frames)
                          (zip_with (fun pr br =>
                                       get_collision_distance (Hitbox_init c)
                                                              (batch_local_row pr br))
                                    prows brows)))
            (Game.players game) collisions /\
    (forall p, p ∈ Game.players game ->
       exists prows,
         hf_entity hit_frames !! Player.name p = Some prows /\
         distances !! Player.name p =
         Some (mkFrame (hf_index hit_frames)
                 (zip_with (fun pr br => row_distance (vsub (row_pos pr) (row_pos br)))
                           prows brows))).
Proof.
  intros Hnd Hne Hcols Hball Hlb Hidx Hload.
  set (idx := hf_index hit_frames) in *.
  set (car_of := fun p => match player_car p with Ok c => c | Raise _ => 0%Z end).
  assert (Hcar : forall p, p ∈ Game.players game -> player_car p = Ok (car_of p)).
  { intros p Hp. unfold car_of. destruct (player_car p) as [c|e] eqn:Hc; [reflexivity|].
    destruct (player_car_spec p) as (Hempty & Honly & _).
    pose proof (Honly _ Hc) as ->. apply Hempty in Hc. destruct (Hload p Hp Hc). }
  assert (Hin : forall p, p ∈ Game.players game ->
                  Player.name p ∈ Player.name <$> Game.players game)
    by (intros p Hp; apply list_elem_of_fmap_2; exact Hp).
  set (Gd := fun q => mkFrame idx
                (zip_with vsub (row_pos <$> column hit_frames (Player.name q))
                          (row_pos <$> brows))).
  set (Gr := fun q => mkFrame idx
                ((fun r => rotation_matrix (rot_x (row_rot r)) (rot_y (row_rot r))
                                          (rot_z (row_rot r)))
                   <$> column hit_frames (Player.name q))).
  set (Gl := fun q => mkFrame idx
                (zip_with batch_local_row (column hit_frames (Player.name q)) brows)).
  set (Gh := fun q => Hitbox_init (car_of q)).
  set (Gc := fun q => (Player.name q,
                       get_collision_distances get_collision_distance (Gl q) (Gh q))).
  assert (Hdet : forall (V : Type) (G : Player.t -> V),
            (forall q r, Player.name q = Player.name r -> G q = G r) ->
            forall p, p ∈ Game.players game ->
            foldl (fun d q => <[Player.name q := G q]> d) (∅ : gmap string V)
                  (Game.players game) !! Player.name p = Some (G p)).
  { intros V G HG p Hp. apply foldl_insert_determined; [|apply Hin, Hp].
    intros q _ Hname. apply HG, Hname. }
  assert (Hd : forall q r, Player.name q = Player.name r -> Gd q = Gd r)
    by (intros q r Hname; unfold Gd; rewrite Hname; reflexivity).
  assert (Hr : forall q r, Player.name q = Player.name r -> Gr q = Gr r)
    by (intros q r Hname; unfold Gr; rewrite Hname; reflexivity).
  assert (Hl : forall q r, Player.name q = Player.name r -> Gl q = Gl r)
    by (intros q r Hname; unfold Gl; rewrite Hname; reflexivity).
  exists (get_distance_from_displacements
            <$> foldl (fun d q => <[Player.name q := Gd q]> d)
                      (∅ : gmap string (Frame Vec3)) (Game.players game)),
         (Gc <$> Game.players game).
  split_and!.
  - unfold batch_tables.
    rewrite (player_dict_ok _ Gd).
    2: { intros q Hq. apply displacements_ok; [|assumption].
         destruct (Hcols q Hq) as (prows & -> & _). eauto. }
    cbn [mbind outcome_bind].
    destruct (Game.players game) as [|p0 rest] eqn:Hplayers; [contradiction|].
    destruct (decide _) as [Hsize|_]; [apply size_fmap_foldl_insert in Hsize as []|].
    rewrite <- Hplayers in *.
    rewrite (player_dict_ok _ Gr).
    2: { intros q Hq. apply rotation_matrices_ok.
         destruct (Hcols q Hq) as (prows & -> & _). eauto. }
    cbn [mbind outcome_bind].
    rewrite (player_dict_ok _ Gl).
    2: { intros q Hq.
         rewrite (Hdet _ Gd Hd q Hq), (Hdet _ Gr Hr q Hq).
         destruct (Hcols q Hq) as (prows & Hp & Hlen).
         unfold Gd, Gr, Gl. rewrite Hp. cbn [default].
         apply local_displacement_of_rows; assumption. }
    cbn [mbind outcome_bind]. unfold get_player_hitboxes.
    rewrite (player_dict_ok _ Gh).
    2: { intros q Hq. apply hitbox_of_ok, Hcar, Hq. }
    cbn [mbind outcome_bind].
    rewrite (player_list_ok _ Gc).
    2: { intros q Hq.
         rewrite (Hdet _ Gl Hl q Hq).
         rewrite (foldl_insert_determined Gh (Game.players game) ∅ (Player.name q) (Gh q)).
         - reflexivity.
         - intros r Hin_r Hname. f_equal. apply (name_unique (Game.players game)); assumption.
         - apply Hin, Hq. }
    cbn [mbind outcome_bind]. rewrite Hplayers. reflexivity.
  - apply Forall2_fmap_r, Forall_Forall2_diag, list.Forall_forall. intros p Hp.
    destruct (Hcols p Hp) as (prows & Hprows & Hlen).
    exists prows, (car_of p). split_and!; [assumption | apply Hcar, Hp |].
    unfold Gc, Gl, Gh, get_collision_distances. rewrite Hprows. cbn [default].
    rewrite fmap_mkFrame, fmap_zip_with_rows. reflexivity.
  - intros p Hp. destruct (Hcols p Hp) as (prows & Hprows & Hlen).
    exists prows. split; [assumption|].
    rewrite lookup_fmap.
    rewrite (Hdet _ Gd Hd p Hp).
    cbn [fmap option_fmap option_map]. f_equal.
    unfold get_distance_from_displacements, Gd. rewrite Hprows. cbn [default].
    rewrite fmap_mkFrame, zip_with_vsub_rows, fmap_zip_with_rows. reflexivity.
Qed.

End BatchFacts.

(** ** More on the frame selector *)

Lemma frames_from_first (c : BallRow) (f : Z) (rest : Frame BallRow) :
  frames_from None ((f, c) :: rest) = frames_from (Some (ang_vel c)) rest.
Proof. rewrite frames_from_cons, row_any_first. reflexivity. Qed.

(** X11. No frame is a candidate exactly when, for every two consecutive
    rows of the ball, no component of the angular velocity that is defined
    in both has changed.  There are fewer candidates than frames, and a ball
    of one frame or none has no candidate. *)
Theorem no_change_no_candidate (game : Game.t) :
  let frames := get_hit_frame_numbers_by_ball_ang_vel game in
  (frames = [] <->
   forall pre p f c post,
     Game.ball game = pre ++ p :: (f, c) :: post ->
     ~ ang_vel_changed (ang_vel p.2) (ang_vel c)) /\
  (length frames <= length (Game.ball game) - 1)%nat /\
  ((length (Game.ball game) <= 1)%nat -> frames = []).
Proof.
  intros frames.
  assert (Hlen : (length frames <= length (Game.ball game) - 1)%nat).
  { unfold frames, get_hit_frame_numbers_by_ball_ang_vel, diff.
    destruct (Game.ball game) as [|[f c] rest]; [vm_compute; lia|].
    rewrite frames_from_first. cbn [length].
    pose proof (sublist_length _ _ (frames_from_sublist (Some (ang_vel c)) rest)) as H.
    rewrite !length_fmap in *. lia. }
  split_and!; [|exact Hlen|].
  - split.
    + intros Hnil pre p f c post Hball Hchanged.
      assert (Hin : f ∈ frames).
      { apply frames_from_elem. right. eauto 6. }
      rewrite Hnil in Hin. apply elem_of_nil in Hin as [].
    + intros Hnone. apply elem_of_nil_inv. intros f Hf.
      apply frames_from_elem in Hf
        as [(c & post & _ & Hc) | (pre & p & c & post & Hball & Hchanged)].
      * rewrite row_any_first in Hc. discriminate.
      * exact (Hnone _ _ _ _ _ Hball Hchanged).
  - intros Hshort. apply length_zero_iff_nil. lia.
Qed.

(** ** The team of a frame *)

Lemma dict_key_spec (v : float) (key : bool) :
  dict_key v = Some key <-> v = Some (if key then 1 else 0).
Proof.
  unfold dict_key. destruct v as [x|]; [|split; discriminate].
  destruct (Req_dec_T x 1) as [-> | Hne1]; [|destruct (Req_dec_T x 0) as [-> | Hne0]];
    destruct key; split; intros H; try reflexivity; try discriminate;
    injection H as H; lra.
Qed.

Lemma make_team_dict_lookup (teams : list Team.t) (key : bool) (team : Team.t) :
  make_team_dict teams !! key = Some team <->
  exists l1 l2, teams = l1 ++ team :: l2 /\ Team.is_orange team = key /\
                forall t, t ∈ l2 -> Team.is_orange t <> key.
Proof.
  unfold make_team_dict. induction teams as [|t init IH] using rev_ind.
  - cbn. rewrite lookup_empty. split; [discriminate|].
    intros (l1 & l2 & H & _). destruct l1; discriminate.
  - rewrite fold_left_app. cbn [fold_left].
    destruct (decide (Team.is_orange t = key)) as [Hkey|Hkey].
    + rewrite Hkey, lookup_insert_eq. split.
      * intros [= <-]. exists init, []. split_and!; [reflexivity | assumption |].
        intros t' Ht'. apply elem_of_nil in Ht' as [].
      * intros (l1 & l2 & Heq & Hflag & Hlater).
        destruct l2 as [|t' l2 _] using rev_ind.
        -- apply app_inj_tail in Heq as [_ ->]. reflexivity.
        -- exfalso. rewrite app_comm_cons, app_assoc in Heq.
           apply app_inj_tail in Heq as [_ ->].
           apply (Hlater t'); [|assumption]. apply elem_of_app. right. left.
    + rewrite lookup_insert_ne by assumption. rewrite IH. split.
      * intros (l1 & l2 & -> & Hflag & Hlater).
        exists l1, (l2 ++ [t]). split_and!; [|assumption|].
        -- rewrite <- app_assoc. reflexivity.
        -- intros t' Ht'. apply elem_of_app in Ht' as [Ht' | Ht']; [eauto|].
           apply list_elem_of_singleton in Ht' as ->. assumption.
      * intros (l1 & l2 & Heq & Hflag & Hlater).
        destruct l2 as [|t' l2 _] using rev_ind.
        -- apply app_inj_tail in Heq as [_ ->]. contradiction.
        -- rewrite app_comm_cons, app_assoc in Heq.
           apply app_inj_tail in Heq as [-> ->].
           exists l1, l2. split_and!; [reflexivity | assumption |].
           intros t'' Ht''. apply Hlater. apply elem_of_app. left. assumption.
Qed.

(** X12. The team responsible for a frame is found exactly when the ball
    has a row at the frame whose [hit_team_no] is 1 or 0 and a team of the
    game has the matching flag, orange for 1 and not orange for 0; it is then
    the last team of the list with that flag.  An undefined or any other
    [hit_team_no] gives no team. *)
Theorem responsible_team_is_last_of_flag (game : Game.t) (f : Z) (team : Team.t) :
  responsible_team game (make_team_dict (Game.teams game)) f = Some team <->
  exists brow l1 l2,
    loc (Game.ball game) f = Ok brow /\
    hit_team_no brow = Some (if Team.is_orange team then 1 else 0) /\
    Game.teams game = l1 ++ team :: l2 /\
    forall t, t ∈ l2 -> Team.is_orange t <> Team.is_orange team.
Proof.
  unfold responsible_team. destruct (loc (Game.ball game) f) as [brow|e].
  - destruct (dict_key (hit_team_no brow)) as [key|] eqn:Hkey.
    + apply dict_key_spec in Hkey. rewrite make_team_dict_lookup. split.
      * intros (l1 & l2 & Hteams & <- & Hlater). exists brow, l1, l2. done.
      * intros (brow' & l1 & l2 & [= <-] & Hflag & Hteams & Hlater).
        exists l1, l2. split_and!; [assumption| |].
        -- rewrite Hkey in Hflag. injection Hflag as Hflag.
           destruct key, (Team.is_orange team); try reflexivity; lra.
        -- rewrite Hkey in Hflag. injection Hflag as Hflag.
           assert (Team.is_orange team = key) as <-
             by (destruct key, (Team.is_orange team); try reflexivity; lra).
           exact Hlater.
    + split; [discriminate|].
      intros (brow' & l1 & l2 & [= <-] & Hflag & _).
      apply dict_key_spec in Hflag. congruence.
  - split; [discriminate|]. intros (brow' & l1 & l2 & [=] & _).
Qed.

(** ** Partial samples *)

Lemma series_any_spec (s : Series) :
  series_any s = true <-> exists c x, c ∈ s.*2 /\ c = Some x /\ x <> 0.
Proof.
  induction s as [|[l v] s IH]; cbn [series_any existsb fmap list_fmap snd].
  - split; [discriminate|]. intros (c & x & Hc & _). apply elem_of_nil in Hc as [].
  - rewrite orb_true_iff. unfold series_any in IH. rewrite IH. split.
    + intros [Hv | (c & x & Hc & Hx)].
      * destruct v as [x|]; [|discriminate]. cbn in Hv. apply Rtruthy_spec in Hv.
        exists (Some x), x. split_and!; [left | reflexivity | assumption].
      * exists c, x. split; [right|]; assumption.
    + intros (c & x & Hc & -> & Hx). apply elem_of_cons in Hc as [<- | Hc].
      * left. cbn. apply Rtruthy_spec, Hx.
      * right. eauto.
Qed.

Lemma joined_values_cases (rot : Rot3) (disp : Vec3) :
  joined_values rot disp =
  if series_any (rotation_series rot ++ position_series disp)
  then if forallb (fun c => negb (isnan c))
                  [rot_x rot; rot_y rot; rot_z rot; pos_x disp; pos_y disp; pos_z disp]
       then Ok (Some (disp, rot))
       else Raise KeyError
  else Ok None.
Proof.
  destruct rot as [[rx|] [ry|] [rz|]], disp as [[dx|] [dy|] [dz|]];
    cbv -[Rtruthy];
    try match goal with
        | |- context [if ?b then _ else _] => destruct b
        end; reflexivity.
Qed.

(** What the cleaning of a sample can give, [.loc] raising on every missing
    label.  It raises [KeyError], and nothing else, exactly when a component
    of the rotation or of the displacement is undefined while a defined one
    is not zero; a sample that is kept is complete and unchanged. *)
Lemma partial_sample_raises (rot : Rot3) (disp : Vec3) :
  let cells := [rot_x rot; rot_y rot; rot_z rot; pos_x disp; pos_y disp; pos_z disp] in
  (joined_values rot disp = Raise KeyError <->
   (exists c, c ∈ cells /\ c = NaN) /\
   (exists c x, c ∈ cells /\ c = Some x /\ x <> 0)) /\
  (forall e, joined_values rot disp = Raise e -> e = KeyError) /\
  (forall d r, joined_values rot disp = Ok (Some (d, r)) ->
               d = disp /\ r = rot /\ Forall (fun c => c <> NaN) cells).
Proof.
  intros cells. rewrite joined_values_cases.
  assert (Hany : series_any (rotation_series rot ++ position_series disp) = true <->
                 exists c x, c ∈ cells /\ c = Some x /\ x <> 0)
    by apply series_any_spec.
  assert (Hall : forallb (fun c => negb (isnan c)) cells = true <->
                 Forall (fun c => c <> NaN) cells).
  { rewrite forallb_forall, list.Forall_forall. split.
    - intros H c Hc Hnan. apply list_elem_of_In, H in Hc. rewrite Hnan in Hc. discriminate.
    - intros H c Hc. apply list_elem_of_In, H in Hc. destruct c; [reflexivity | contradiction]. }
  fold cells.
  destruct (series_any _).
  - destruct (forallb _ cells).
    + pose proof (proj1 Hall eq_refl) as Hdef.
      split_and!.
      * split; [discriminate|]. intros [(c & Hc & Hnan) _].
        rewrite list.Forall_forall in Hdef. destruct (Hdef c Hc Hnan).
      * discriminate.
      * intros d r [= <- <-]. split_and!; [reflexivity.. |]. exact Hdef.
    + assert (Hdef : ~ Forall (fun c => c <> NaN) cells)
        by (intros HF; apply Hall in HF; discriminate).
      split_and!.
      * split; [|reflexivity]. intros _. split; [|apply Hany; reflexivity].
        apply not_Forall_Exists in Hdef; [|intros c; apply _].
        apply list.Exists_exists in Hdef as (c & Hc & Hnan).
        exists c. split; [assumption|]. destruct c; [|reflexivity].
        exfalso. apply Hnan. discriminate.
      * intros e [= <-]. reflexivity.
      * discriminate.
  - split_and!.
    + split; [discriminate|]. intros [_ H]. apply Hany in H. discriminate.
    + discriminate.
    + discriminate.
Qed.

(** X13. A group of columns that is missing altogether makes the cleaning
    raise.  When the three rotation components are undefined and a
    displacement component is a number other than zero, or the three
    displacement components are undefined and a rotation component is a
    number other than zero, reading the values back raises [KeyError]; the
    cleaning raises nothing but [KeyError]; and on a sample whose six
    components are all defined it does not raise: the sample is kept
    unchanged, or dropped when all six are zero. *)
Theorem missing_group_raises_KeyError (rot : Rot3) (disp : Vec3) :
  ((rot_x rot = NaN /\ rot_y rot = NaN /\ rot_z rot = NaN) ->
   (exists x, x <> 0 /\
      (pos_x disp = Some x \/ pos_y disp = Some x \/ pos_z disp = Some x)) ->
   joined_values rot disp = Raise KeyError) /\
  ((pos_x disp = NaN /\ pos_y disp = NaN /\ pos_z disp = NaN) ->
   (exists x, x <> 0 /\
      (rot_x rot = Some x \/ rot_y rot = Some x \/ rot_z rot = Some x)) ->
   joined_values rot disp = Raise KeyError) /\
  (forall e, joined_values rot disp = Raise e -> e = KeyError) /\
  (forall rx ry rz dx dy dz,
     rot = mkRot3 (Some rx) (Some ry) (Some rz) -> disp = vec dx dy dz ->
     (rx = 0 /\ ry = 0 /\ rz = 0 /\ dx = 0 /\ dy = 0 /\ dz = 0 ->
      joined_values rot disp = Ok None) /\
     (~ (rx = 0 /\ ry = 0 /\ rz = 0 /\ dx = 0 /\ dy = 0 /\ dz = 0) ->
      joined_values rot disp = Ok (Some (disp, rot)))).
Proof.
  pose proof (partial_sample_raises rot disp) as (Hraise & Honly & _).
  cbv zeta in Hraise. split_and!.
  - intros (Hx & _) (x & Hne & Hpos). apply Hraise. split.
    + exists NaN. split; [|reflexivity]. rewrite <- Hx. apply list_elem_of_In; cbn; auto 10.
    + exists (Some x), x. split_and!; [|reflexivity | assumption].
      destruct Hpos as [<- | [<- | <-]]; apply list_elem_of_In; cbn; auto 10.
  - intros (Hx & _) (x & Hne & Hrot). apply Hraise. split.
    + exists NaN. split; [|reflexivity]. rewrite <- Hx. apply list_elem_of_In; cbn; auto 10.
    + exists (Some x), x. split_and!; [|reflexivity | assumption].
      destruct Hrot as [<- | [<- | <-]]; apply list_elem_of_In; cbn; auto 10.
  - exact Honly.
  - intros rx ry rz dx dy dz -> ->. split.
    + intros (-> & -> & -> & -> & -> & ->). apply joined_values_dropped.
      cbv -[Rtruthy]. rewrite Rtruthy_false by reflexivity. reflexivity.
    + intros Hnz. apply joined_values_complete, Hnz.
Qed.

(** ** More on the detection pass *)

Lemma loc_raises_KeyError {A : Type} (df : Frame A) (f : Z) (e : exn) :
  loc df f = Raise e -> e = KeyError.
Proof.
  induction df as [|[i row] rest IH]; cbn; [congruence|].
  destruct (decide (i = f)); [discriminate | exact IH].
Qed.

Section ResolverMore.
Context {Hitbox PlayerId : Type}.
Variable get_hitbox : Z -> Hitbox.
Variable unrotate_position : Vec3 -> Rot3 -> Vec3.
Variable get_distance : Vec3 -> Hitbox -> float.
Variable id_creation : string -> PlayerId.

Local Abbreviation step := (player_step get_hitbox unrotate_position get_distance).
Local Abbreviation loop := (team_loop get_hitbox unrotate_position get_distance).
Local Abbreviation dist := (evaluated_distance get_hitbox unrotate_position get_distance).
Local Abbreviation fstep :=
  (frame_step get_hitbox unrotate_position get_distance id_creation).
Local Abbreviation floop :=
  (frames_loop get_hitbox unrotate_position get_distance id_creation).
Local Abbreviation striker := (resolve get_hitbox unrotate_position get_distance).
Local Abbreviation is_accepted := (accepted get_hitbox unrotate_position get_distance).
Local Abbreviation pass :=
  (get_hits_from_game get_hitbox unrotate_position get_distance id_creation).

(** The striker accepted at a frame is a player of the team responsible
    for the frame, evaluated with the accepted distance, a number below
    500. *)
Lemma resolve_some (game : Game.t) (f : Z) (p : Player.t) (d : float) :
  striker game f = Ok (Some (p, d)) ->
  exists team m,
    responsible_team game (make_team_dict (Game.teams game)) f = Some team /\
    p ∈ Team.players team /\ d = Some m /\ m < 500 /\
    dist game f p = Some (Some m).
Proof.
  unfold resolve.
  destruct (responsible_team _ _ _) as [team|]; [|discriminate].
  destruct (loop game f (Team.players team) _) as [st|] eqn:Hloop; [|discriminate].
  destruct (accept st) as [[q|] d'] eqn:Hacc; [|discriminate].
  intros [= -> ->].
  destruct (team_loop_spec _ _ _ _ _ _ _ _ 999999 Hloop eq_refl)
    as (m & Hm & Hmin & Hcase).
  destruct (accept_spec st) as [Hyes Hno].
  destruct (Rlt_dec m 500) as [Hlt|Hge].
  2: { rewrite (Hno m Hm Hge) in Hacc. discriminate. }
  rewrite (Hyes m Hm Hlt) in Hacc. injection Hacc as Hp <-.
  destruct Hcase as [[-> _] | (_ & l1 & p' & l2 & Hps & Hp' & Hd & _)]; [lra|].
  rewrite Hp' in Hp. injection Hp as <-.
  exists team, m. split_and!; [reflexivity | | reflexivity | assumption | assumption].
  rewrite Hps. apply elem_of_app. right. left.
Qed.

(** What one iteration of the frame loop can do to the state, whether it
    completes or raises: at most one message is added at the end of the
    hits, for the frame, and at most the entry of the frame is set. *)
Lemma frame_step_effect (game : Game.t) (team_dict : gmap bool Team.t)
    (df : Frame (option Z)) (f : Z) (st st' : State PlayerId) (o : outcome unit) :
  fstep game team_dict df f st = (o, st') ->
  (hits st' = hits st /\ all_hits st' = all_hits st) \/
  (exists h, hits st' = hits st ++ [h] /\ frame_number h = f /\
             (all_hits st' = all_hits st \/
              all_hits st' = <[f := length (hits st)]> (all_hits st))).
Proof.
  unfold frame_step.
  destruct (responsible_team _ _ _) as [team|]; [|intros [= <- <-]; left; done].
  destruct (loop game f (Team.players team) _) as [locals|];
    [|intros [= <- <-]; left; done].
  destruct (accept locals) as [[p|] d]; [|intros [= <- <-]; left; done].
  unfold build_hit. intros Hbuild. right.
  destruct (loc df f) as [g|e].
  - destruct (ball_position locals) as [[x y z]|].
    + injection Hbuild as <- <-. cbn [hits all_hits].
      destruct g as [g|]; rewrite !alter_last; eexists; split_and!;
        [reflexivity | reflexivity | right; reflexivity
        | reflexivity | reflexivity | right; reflexivity].
    + injection Hbuild as <- <-. cbn [hits all_hits].
      destruct g as [g|]; rewrite !alter_last; eexists; split_and!;
        [reflexivity | reflexivity | left; reflexivity
        | reflexivity | reflexivity | left; reflexivity].
  - injection Hbuild as <- <-. cbn [hits all_hits].
    rewrite !alter_last. eexists. split_and!; [reflexivity | reflexivity | left; reflexivity].
Qed.

Lemma frames_loop_effect (game : Game.t) (team_dict : gmap bool Team.t)
    (df : Frame (option Z)) (fs : list Z) (st st' : State PlayerId) (o : outcome unit) :
  floop game team_dict df fs st = (o, st') ->
  (exists new, hits st' = hits st ++ new /\
               (length new <= length fs)%nat /\
               Forall (fun h => frame_number h ∈ fs) new) /\
  (forall f, is_Some (all_hits st' !! f) -> f ∈ fs \/ is_Some (all_hits st !! f)).
Proof.
  revert st. induction fs as [|f0 rest IH]; intros st Hloop.
  - injection Hloop as <- <-. split; [|auto].
    exists []. rewrite app_nil_r. split_and!; [reflexivity | reflexivity | constructor].
  - cbn [frames_loop] in Hloop.
    destruct (fstep game team_dict df f0 st) as [o1 st1] eqn:Hstep.
    apply frame_step_effect in Hstep.
    assert (Hdone : (exists new, hits st1 = hits st ++ new /\ (length new <= 1)%nat /\
                                 Forall (fun h => frame_number h ∈ f0 :: rest) new) /\
                    (forall f, is_Some (all_hits st1 !! f) ->
                               f ∈ f0 :: rest \/ is_Some (all_hits st !! f))).
    { destruct Hstep as [[Hh Ha] | (h & Hh & Hf & Ha)].
      - split; [|intros f; rewrite Ha; auto].
        exists []. rewrite app_nil_r. split_and!; [assumption | cbn; lia | constructor].
      - split.
        + exists [h]. split_and!; [assumption | reflexivity |].
          constructor; [rewrite Hf; left | constructor].
        + intros f. destruct Ha as [-> | ->]; [auto|].
          rewrite lookup_insert_is_Some. intros [<- | [_ H]]; [left; left | right; exact H]. }
    destruct Hdone as [(new1 & Hh1 & Hlen1 & Hall1) Hkeys1].
    destruct o1 as [[]|e].
    + destruct (IH st1 Hloop) as [(new & Hh & Hlen & Hall) Hkeys]. split.
      * exists (new1 ++ new). rewrite Hh, Hh1, <- app_assoc.
        split_and!; [reflexivity | rewrite length_app; cbn; lia |].
        apply Forall_app. split; [assumption|].
        eapply Forall_impl; [exact Hall|]. intros h Hin. right. exact Hin.
      * intros f Hf. destruct (Hkeys f Hf) as [Hin | Hin]; [left; right; exact Hin|].
        apply Hkeys1, Hin.
    + injection Hloop as <- <-. split; [|exact Hkeys1].
      exists new1. split_and!; [assumption | cbn; lia | assumption].
Qed.

(** X14. Whatever the detection pass does, return or raise, it leaves the
    hits that [proto_game.game_stats.hits] held on entry as they were and in
    place, and adds at most one message per candidate frame, each with
    the number of a candidate frame.  When it returns and no striker is
    accepted at any candidate frame, the mapping is empty and the hits are
    unchanged. *)
Theorem detection_only_appends (game : Game.t) (proto_hits : list (Hit PlayerId))
    (df : Frame (option Z)) :
  let candidates := get_hit_frame_numbers_by_ball_ang_vel game in
  (exists new,
      (pass game proto_hits df).2 = proto_hits ++ new /\
      (length new <= length candidates)%nat /\
      Forall (fun h => frame_number h ∈ candidates) new) /\
  (forall mapping, (pass game proto_hits df).1 = Ok mapping ->
     (forall f, is_Some (mapping !! f) -> f ∈ candidates) /\
     ((forall f, f ∈ candidates -> is_accepted game f = false) ->
      mapping = ∅ /\ (pass game proto_hits df).2 = proto_hits)).
Proof.
  intros candidates. unfold get_hits_from_game. fold candidates.
  destruct (floop game _ df candidates (mkState proto_hits ∅ None)) as [o st'] eqn:Hloop.
  pose proof (frames_loop_effect _ _ _ _ _ _ _ Hloop) as [Hnew Hkeys].
  cbn [hits all_hits] in Hnew, Hkeys.
  split.
  - destruct o as [[]|e]; exact Hnew.
  - intros mapping Hmap. destruct o as [[]|e]; [|discriminate].
    cbn [fst snd] in *. injection Hmap as <-. split.
    + intros f Hf. destruct (Hkeys f Hf) as [Hin | Hin]; [exact Hin|].
      rewrite lookup_empty in Hin. destruct Hin as [? [=]].
    + intros Hnone. clear Hnew Hkeys.
      assert (Hgen : forall fs (st : State PlayerId),
                (forall f, f ∈ fs -> is_accepted game f = false) ->
                floop game (make_team_dict (Game.teams game)) df fs st = (Ok tt, st') ->
                all_hits st' = all_hits st /\ hits st' = hits st).
      { induction fs as [|f0 rest IH]; intros st Hrej Hl.
        - injection Hl as <-. done.
        - cbn [frames_loop] in Hl.
          destruct (fstep game _ df f0 st) as [[[]|e] st1] eqn:Hstep; [|discriminate].
          apply frame_step_ok in Hstep
            as [(_ & Hh & Ha) | (p & d & _ & _ & Hs & _)].
          + rewrite <- Hh, <- Ha. apply IH; [|exact Hl].
            intros f Hf. apply Hrej. right. exact Hf.
          + specialize (Hrej f0 ltac:(left)). unfold accepted in Hrej.
            rewrite Hs in Hrej. discriminate. }
      destruct (Hgen candidates _ Hnone Hloop) as [Ha Hh].
      cbn [all_hits hits] in Ha, Hh. split; assumption.
Qed.

(** X15. When the detection pass returns, every entry of the mapping is for
    a candidate frame, and its hit names a player of the team responsible
    for the frame; the collision distance of the hit is the distance that
    player was evaluated with, a number strictly below 500, never NaN and
    never the sentinel. *)
Theorem returned_hits_are_team_strikers (game : Game.t)
    (proto_hits : list (Hit PlayerId)) (df : Frame (option Z))
    (mapping : gmap Z nat) (store : list (Hit PlayerId)) :
  pass game proto_hits df = (Ok mapping, store) ->
  forall f ref, mapping !! f = Some ref ->
    f ∈ get_hit_frame_numbers_by_ball_ang_vel game /\
    exists h team p m,
      store !! ref = Some h /\
      responsible_team game (make_team_dict (Game.teams game)) f = Some team /\
      p ∈ Team.players team /\
      player_id h = Some (id_creation (Player.name p)) /\
      collision_distance h = Some m /\ m < 500 /\
      dist game f p = Some (Some m).
Proof.
  intros Hpass f ref Href.
  unfold get_hits_from_game in Hpass.
  destruct (floop game _ df _ _) as [[[]|e] st'] eqn:Hloop; [|discriminate].
  injection Hpass as <- <-. split.
  - destruct (proj2 (frames_loop_effect _ _ _ _ _ _ _ Hloop) f) as [Hin | Hin];
      [eauto | exact Hin |].
    cbn in Hin. rewrite lookup_empty in Hin. destruct Hin as [? [=]].
  - pose proof (frames_loop_hits _ _ _ _ _ _ _ _ _ Hloop) as Hinv.
    destruct (Hinv ltac:(intros f' ref'; cbn [all_hits]; rewrite lookup_empty; discriminate)
                   f ref Href)
      as (p & d & brow & g & Hs & _ & _ & Hh).
    destruct (resolve_some _ _ _ _ Hs) as (team & m & Hteam & Hp & -> & Hm & Hd).
    eexists _, team, p, m. split_and!; [exact Hh | assumption | assumption
                                      | reflexivity | reflexivity | assumption | assumption].
Qed.


(** X17. The hit of every entry of a returned mapping can be looked up
    again: [get_ball_data] does not raise on it and returns the row of the
    ball at the frame of the hit, whose position is the one stored in the
    hit. *)
Theorem ball_data_of_returned_hit (game : Game.t)
    (proto_hits : list (Hit PlayerId)) (df : Frame (option Z))
    (mapping : gmap Z nat) (store : list (Hit PlayerId)) :
  pass game proto_hits df = (Ok mapping, store) ->
  forall f ref h, mapping !! f = Some ref -> store !! ref = Some h ->
    exists brow,
      get_ball_data game h = Ok brow /\
      loc (Game.ball game) f = Ok brow /\
      ball_pos brow = ball_data h.
Proof.
  intros Hpass f ref h Href Hh.
  unfold get_hits_from_game in Hpass.
  destruct (floop game _ df _ _) as [[[]|e] st'] eqn:Hloop; [|discriminate].
  injection Hpass as <- <-.
  pose proof (frames_loop_hits _ _ _ _ _ _ _ _ _ Hloop) as Hinv.
  destruct (Hinv ltac:(intros f' ref'; cbn [all_hits]; rewrite lookup_empty; discriminate)
                 f ref Href)
    as (p & d & brow & g & _ & Hb & _ & Hh').
  rewrite Hh in Hh'. injection Hh' as ->.
  exists brow. unfold get_ball_data. cbn [frame_number ball_data]. done.
Qed.

(** Whether an iteration of the team loop raises depends on the player and
    the frame, not on the closest player so far. *)
Lemma player_step_completes_anywhere (game : Game.t) (f : Z) (p : Player.t)
    (st st1 st' : Locals) :
  step game f p st = Ok st1 -> exists st1', step game f p st' = Ok st1'.
Proof.
  unfold player_step, player_sample.
  destruct (player_car p); [|discriminate].
  destruct (loc (Player.data p) f); [|eauto].
  destruct (loc (Game.ball game) f); [|eauto].
  destruct (joined_values _ _) as [[[d r]|]|]; [| eauto | discriminate].
  intros _. cbn [closest_player_distance]. destruct (fltb _ _); eauto.
Qed.

Lemma team_loop_completes (game : Game.t) (f : Z) (ps : list Player.t) (st : Locals) :
  (exists st', loop game f ps st = Ok st') <->
  forall p, p ∈ ps -> exists st1, step game f p st = Ok st1.
Proof.
  revert st. induction ps as [|p rest IH]; intros st.
  - split; [|cbn; eauto]. intros _ q Hq. apply elem_of_nil in Hq as [].
  - cbn [team_loop]. split.
    + intros [st' Hloop].
      destruct (step game f p st) as [st1|] eqn:Hstep; [|discriminate].
      intros q Hq. apply elem_of_cons in Hq as [-> | Hq]; [eauto|].
      destruct (proj1 (IH st1) (ex_intro _ st' Hloop) q Hq) as [st2 Hq2].
      exact (player_step_completes_anywhere _ _ _ _ _ st Hq2).
    + intros Hall. destruct (Hall p ltac:(left)) as [st1 Hstep]. rewrite Hstep.
      apply IH. intros q Hq. destruct (Hall q ltac:(right; exact Hq)) as [st2 Hq2].
      exact (player_step_completes_anywhere _ _ _ _ _ st1 Hq2).
Qed.

(** X18. The order of the players of a team matters for ties only.  When
    the team loop completes on a list of players, it completes on every
    reordering of the list; the closest distance is the same, a striker is
    accepted on the one exactly when a striker is accepted on the other,
    with the same accepted distance, and the two strikers were evaluated
    with that distance. *)
Theorem team_order_matters_for_ties_only (game : Game.t) (f : Z)
    (ps ps' : list Player.t) (bp : option Vec3) (st : Locals) :
  ps ≡ₚ ps' ->
  loop game f ps (mkLocals None (Some 999999) bp) = Ok st ->
  exists st',
    loop game f ps' (mkLocals None (Some 999999) bp) = Ok st' /\
    closest_player_distance st' = closest_player_distance st /\
    (accept st').2 = (accept st).2 /\
    ((accept st).1 = None <-> (accept st').1 = None) /\
    (forall p p', (accept st).1 = Some p -> (accept st').1 = Some p' ->
                  dist game f p = dist game f p' /\
                  dist game f p = Some (closest_player_distance st)).
Proof.
  intros Hperm Hloop.
  assert (Hcomplete : exists st', loop game f ps' (mkLocals None (Some 999999) bp) = Ok st').
  { apply team_loop_completes. intros p Hp. rewrite <- Hperm in Hp.
    exact (proj1 (team_loop_completes _ _ _ _) (ex_intro _ st Hloop) p Hp). }
  destruct Hcomplete as [st' Hloop']. exists st'. split; [assumption|].
  destruct (team_loop_spec _ _ _ _ _ _ _ _ 999999 Hloop eq_refl)
    as (m & Hm & Hmin & Hcase).
  destruct (team_loop_spec _ _ _ _ _ _ _ _ 999999 Hloop' eq_refl)
    as (m' & Hm' & Hmin' & Hcase').
  assert (Heq : m' = m).
  { destruct Hcase as [[-> _] | (Hlt & l1 & p & l2 & Hps & _ & Hd & _)];
      destruct Hcase' as [[-> _] | (Hlt' & l1' & p' & l2' & Hps' & _ & Hd' & _)].
    - reflexivity.
    - assert (Hin : p' ∈ ps) by (rewrite Hperm, Hps'; apply elem_of_app; right; left).
      specialize (Hmin _ _ Hin Hd'). lra.
    - assert (Hin : p ∈ ps') by (rewrite <- Hperm, Hps; apply elem_of_app; right; left).
      specialize (Hmin' _ _ Hin Hd). lra.
    - assert (Hin : p' ∈ ps) by (rewrite Hperm, Hps'; apply elem_of_app; right; left).
      assert (Hin' : p ∈ ps') by (rewrite <- Hperm, Hps; apply elem_of_app; right; left).
      specialize (Hmin _ _ Hin Hd'). specialize (Hmin' _ _ Hin' Hd). lra. }
  subst m'.
  destruct (accept_spec st) as [Hyes Hno]. destruct (accept_spec st') as [Hyes' Hno'].
  split; [congruence|].
  destruct (Rlt_dec m 500) as [Hlt|Hge].
  - rewrite (Hyes m Hm Hlt), (Hyes' m Hm' Hlt). cbn [fst snd].
    destruct Hcase as [[-> _] | (_ & l1 & p & l2 & _ & Hp & Hd & _)]; [lra|].
    destruct Hcase' as [[-> _] | (_ & l1' & p' & l2' & _ & Hp' & Hd' & _)]; [lra|].
    rewrite Hp, Hp'. split_and!; [reflexivity | split; discriminate |].
    intros q q' Hq Hq'. injection Hq as <-. injection Hq' as <-.
    rewrite Hm, Hd, Hd'. done.
  - rewrite (Hno m Hm Hge), (Hno' m Hm' Hge). cbn [fst snd].
    split_and!; [reflexivity | tauto | discriminate].
Qed.

End ResolverMore.

(** ** The further properties at the sample matches *)

Lemma lone_hit_frames_player :
  hf_entity lone_hit_frames !! "p"%string = Some [level_row].
Proof. unfold lone_hit_frames. cbn [hf_entity]. apply lookup_insert_eq. Qed.

Lemma lone_hit_frames_ball :
  hf_entity lone_hit_frames !! "ball"%string =
  Some [mkRow (vec 0 0 100) (mkRot3 (Some 0) (Some 0) (Some 0))].
Proof.
  unfold lone_hit_frames. cbn [hf_entity].
  rewrite lookup_insert_ne by discriminate. apply lookup_insert_eq.
Qed.

Lemma batch_pipeline_rows_witness :
  exists displacement rotation_matrices,
    get_player_ball_displacements lone_hit_frames "p" = Ok displacement /\
    get_rotation_matrices lone_hit_frames "p" = Ok rotation_matrices /\
    get_local_displacement displacement rotation_matrices =
    Ok (mkFrame [2%Z]
          (zip_with batch_local_row [level_row]
                    [mkRow (vec 0 0 100) (mkRot3 (Some 0) (Some 0) (Some 0))])).
Proof.
  apply (batch_pipeline_rows lone_hit_frames "p" _ _
           lone_hit_frames_player lone_hit_frames_ball eq_refl eq_refl).
  discriminate.
Defined.

Lemma batch_tables_rows_witness :
  exists distances collisions,
    batch_tables sample_hitbox (fun hitbox d => sample_distance d hitbox)
                 lone_game lone_hit_frames = Ok (distances, collisions) /\
    Forall2 (fun p col =>
               exists prows c,
                 hf_entity lone_hit_frames !! Player.name p = Some prows /\
                 player_car p = Ok c /\
                 col = (Player.name p,
                        mkFrame [2%Z]
                          (zip_with (fun pr br =>
                                       sample_distance (batch_local_row pr br)
                                                       (sample_hitbox c))
                                    prows
                                    [mkRow (vec 0 0 100)
                                           (mkRot3 (Some 0) (Some 0) (Some 0))])))
            (Game.players lone_game) collisions /\
    (forall p, p ∈ Game.players lone_game ->
       exists prows,
         hf_entity lone_hit_frames !! Player.name p = Some prows /\
         distances !! Player.name p =
         Some (mkFrame [2%Z]
                 (zip_with (fun pr br => row_distance (vsub (row_pos pr) (row_pos br)))
                           prows
                           [mkRow (vec 0 0 100) (mkRot3 (Some 0) (Some 0) (Some 0))]))).
Proof.
  apply (batch_tables_rows sample_hitbox (fun hitbox d => sample_distance d hitbox)
           lone_game lone_hit_frames).
  - cbn. apply NoDup_singleton.
  - discriminate.
  - intros p Hp. cbn in Hp. apply list_elem_of_singleton in Hp as ->.
    exists [level_row]. split; [apply lone_hit_frames_player | reflexivity].
  - apply lone_hit_frames_ball.
  - reflexivity.
  - discriminate.
  - intros p Hp. cbn in Hp. apply list_elem_of_singleton in Hp as ->. discriminate.
Defined.


Lemma returned_hits_are_team_strikers_witness :
  2%Z ∈ get_hit_frame_numbers_by_ball_ang_vel lone_game /\
  exists h team p m,
    [mkHit 2%Z None (Some "p"%string) (Some (100 - 0 - 90)) (vec 0 0 100)] !! 0%nat = Some h /\
    responsible_team lone_game (make_team_dict (Game.teams lone_game)) 2 = Some team /\
    p ∈ Team.players team /\
    player_id h = Some (sample_id (Player.name p)) /\
    collision_distance h = Some m /\ m < 500 /\
    evaluated_distance sample_hitbox sample_unrotate sample_distance lone_game 2 p =
    Some (Some m).
Proof.
  apply (returned_hits_are_team_strikers sample_hitbox sample_unrotate sample_distance
           sample_id lone_game [] no_goal_column _ _ lone_game_run 2%Z 0%nat).
  apply lookup_insert_eq.
Defined.


Lemma ball_data_of_returned_hit_witness :
  exists brow,
    get_ball_data lone_game
      (mkHit 2%Z None (Some "p"%string) (Some (100 - 0 - 90)) (vec 0 0 100)) = Ok brow /\
    loc (Game.ball lone_game) 2 = Ok brow /\
    ball_pos brow = vec 0 0 100.
Proof.
  apply (ball_data_of_returned_hit sample_hitbox sample_unrotate sample_distance
           sample_id lone_game [] no_goal_column _ _ lone_game_run 2%Z 0%nat).
  - apply lookup_insert_eq.
  - reflexivity.
Defined.

Lemma team_order_matters_for_ties_only_witness :
  exists st',
    team_loop sample_hitbox sample_unrotate sample_distance duo_game 2
              [second_player; lone_player] (mkLocals None (Some 999999) None) = Ok st' /\
    closest_player_distance st' = Some (100 - 0 - 90) /\
    (accept st').2 =
    (accept (mkLocals (Some lone_player) (Some (100 - 0 - 90)) (Some (vec 0 0 100)))).2.
Proof.
  destruct (team_order_matters_for_ties_only sample_hitbox sample_unrotate sample_distance
              duo_game 2 (Team.players duo_team) [second_player; lone_player] None _
              (perm_swap _ _ _) (duo_team_loop None))
    as (st' & Hloop & Hd & Hacc & _).
  exists st'. split_and!; assumption.
Defined.
